(** * pypsu: the PS2 PSU save-file codec and archive model

    A shallow embedding of [psu/header.py], [psu/entry.py], [psu/psu.py] and
    [psu/exceptions.py], followed by the properties of the codec.

    Conventions of the embedding:
    - [bytes] is [list byte]; Python slices [d[a:b]] are [take]/[drop];
    - [str] is a list of Unicode code points, with the strict UTF-8 codec of
      CPython written out;
    - Python integers are [Z];
    - a call that may raise returns a [result]; a method that mutates its
      receiver returns the receiver's new value next to the result. *)

From Stdlib Require Import ZArith Lia Bool.
From Stdlib Require Import Init.Byte.
From stdpp Require Import base tactics option list strings.

Local Open Scope Z_scope.

(** ** Bytes and text *)

Abbreviation bytes := (list byte).

(** A Python [str]: a sequence of code points. *)
Abbreviation str := (list Z).

Definition byte_to_Z (b : byte) : Z := Z.of_N (Byte.to_N b).

Definition byte_of_Z (z : Z) : byte :=
  match Byte.of_N (Z.to_N z) with
  | Some b => b
  | None => x00
  end.

(** The literals ['.'] and ['..']. *)
Definition name_dot : str := [46].
Definition name_dotdot : str := [46; 46].

(** [len(x)] as a Python integer. *)
Definition len {A} (l : list A) : Z := Z.of_nat (length l).

(** [b'\x00' * n] *)
Definition zeros (n : Z) : bytes := replicate (Z.to_nat n) x00.

(** ** Exceptions *)

Inductive exn : Type :=
  | StructError                                   (* struct.error *)
  | ValueError                                    (* datetime(...) out of range *)
  | UnicodeDecodeError
  | UnicodeEncodeError
  | AttributeError
  | IndexError
  | OSError                                       (* OSError and its subclasses *)
  | EntryNotFoundException (entryName : str)
  | UnknownEntryTypeException (type : Z) (entryName : str)
  | EntryNotAFileException (entryName : str).

(** The Python class of an exception value. *)
Definition exn_class (e : exn) : string :=
  match e with
  | StructError => "struct.error"
  | ValueError => "ValueError"
  | UnicodeDecodeError => "UnicodeDecodeError"
  | UnicodeEncodeError => "UnicodeEncodeError"
  | AttributeError => "AttributeError"
  | IndexError => "IndexError"
  | OSError => "OSError"
  | EntryNotFoundException _ => "EntryNotFoundException"
  | UnknownEntryTypeException _ _ => "UnknownEntryTypeException"
  | EntryNotAFileException _ => "EntryNotAFileException"
  end.

(** [exceptions.py]: the three classes deriving from [PSUException]. *)
Definition is_PSUException (e : exn) : bool :=
  match e with
  | EntryNotFoundException _ | UnknownEntryTypeException _ _
  | EntryNotAFileException _ => true
  | _ => false
  end.

Inductive result (A : Type) : Type :=
  | Ok (a : A)
  | Raise (e : exn).
Arguments Ok {A} a.
Arguments Raise {A} e.

#[global] Instance result_ret : MRet result := fun A a => Ok a.
#[global] Instance result_bind : MBind result := fun A B f m =>
  match m with
  | Ok a => f a
  | Raise e => Raise e
  end.

Definition is_Ok {A} (r : result A) : bool :=
  match r with Ok _ => true | Raise _ => false end.

(** ** The [struct] module, for the codes the format string uses *)

Inductive fmt_code := fmt_B | fmt_H | fmt_I.

Definition fmt_width (c : fmt_code) : nat :=
  match c with fmt_B => 1%nat | fmt_H => 2%nat | fmt_I => 4%nat end.

Fixpoint calcsize (fmt : list fmt_code) : nat :=
  match fmt with
  | [] => 0%nat
  | c :: f => (fmt_width c + calcsize f)%nat
  end.

(** Little-endian encoding of [v] on [w] bytes. *)
Fixpoint le_bytes (w : nat) (v : Z) : bytes :=
  match w with
  | O => []
  | S w' => byte_of_Z (v mod 256) :: le_bytes w' (v / 256)
  end.

Fixpoint le_value (bs : bytes) : Z :=
  match bs with
  | [] => 0
  | b :: r => byte_to_Z b + 256 * le_value r
  end.

Definition fmt_fits (c : fmt_code) (v : Z) : bool :=
  (0 <=? v) && (v <? 256 ^ Z.of_nat (fmt_width c)).

(** [struct.pack('<...', *vals)]: a value outside its code's range, or a wrong
    number of values, is a [struct.error]. *)
Fixpoint struct_pack (fmt : list fmt_code) (vals : list Z) : result bytes :=
  match fmt, vals with
  | [], [] => Ok []
  | c :: f, v :: vs =>
      if fmt_fits c v
      then rest ← struct_pack f vs; Ok (le_bytes (fmt_width c) v ++ rest)
      else Raise StructError
  | _, _ => Raise StructError
  end.

Fixpoint unpack_fields (fmt : list fmt_code) (data : bytes) : list Z :=
  match fmt with
  | [] => []
  | c :: f =>
      le_value (take (fmt_width c) data) :: unpack_fields f (drop (fmt_width c) data)
  end.

(** [struct.unpack('<...', data)]: the buffer must have exactly the size of
    the format. *)
Definition struct_unpack (fmt : list fmt_code) (data : bytes) : result (list Z) :=
  if decide (length data = calcsize fmt)
  then Ok (unpack_fields fmt data)
  else Raise StructError.

(** [t[i]] on the tuple [struct.unpack] returns. *)
Definition item (t : list Z) (i : nat) : Z := nth i t 0.
Arguments item t i%_nat.

(** ** [datetime.datetime] *)

Record datetime := mk_datetime {
  year : Z; month : Z; day : Z;
  hour : Z; minute : Z; second : Z;
  microsecond : Z
}.

Definition MINYEAR : Z := 1.
Definition MAXYEAR : Z := 9999.

Definition is_leap (y : Z) : bool :=
  (y mod 4 =? 0) && (negb (y mod 100 =? 0) || (y mod 400 =? 0)).

Definition days_in_month (y m : Z) : Z :=
  if m =? 2 then (if is_leap y then 29 else 28)
  else if (m =? 4) || (m =? 6) || (m =? 9) || (m =? 11) then 30
  else 31.

Definition date_fields_ok (y mo d : Z) : bool :=
  (MINYEAR <=? y) && (y <=? MAXYEAR) &&
  (1 <=? mo) && (mo <=? 12) &&
  (1 <=? d) && (d <=? days_in_month y mo).

Definition time_fields_ok (h mi s : Z) : bool :=
  (0 <=? h) && (h <=? 23) && (0 <=? mi) && (mi <=? 59) && (0 <=? s) && (s <=? 59).

(** The constructor [datetime(year, month, day, hour, minute, second)]:
    a [ValueError] unless the fields denote a date-time. *)
Definition datetime_new (y mo d h mi s : Z) : result datetime :=
  if date_fields_ok y mo d && time_fields_ok h mi s
  then Ok (mk_datetime y mo d h mi s 0)
  else Raise ValueError.

(** What every value of Python's [datetime] type satisfies. *)
Definition datetime_ok (t : datetime) : bool :=
  date_fields_ok (year t) (month t) (day t) &&
  time_fields_ok (hour t) (minute t) (second t).

(** ** [header.py] *)

Module Header.

Record t := mk {
  type : Z;
  size : Z;
  created : datetime;
  modified : datetime;
  sectorAddress : Z;
  unk1 : Z;
  unk2 : Z;
  unk3 : Z
}.

(** [FORMAT = '<HHI6BHHHI6BH'] *)
Definition FORMAT : list fmt_code :=
  [fmt_H; fmt_H; fmt_I] ++ replicate 6 fmt_B ++
  [fmt_H; fmt_H; fmt_H; fmt_I] ++ replicate 6 fmt_B ++ [fmt_H].

Definition SIZE : nat := 0x20.

(** [Header(type, size, created, modified, sectorAddress, unk1, unk2, unk3)] *)
Definition new (type size : Z) (created modified : datetime)
    (sectorAddress unk1 unk2 unk3 : Z) : t :=
  mk type size created modified sectorAddress unk1 unk2 unk3.

Definition deserialize (data : bytes) : result t :=
  header ← struct_unpack FORMAT data;
  created ← datetime_new (item header 9) (item header 8) (item header 7)
                         (item header 6) (item header 5) (item header 4);
  modified ← datetime_new (item header 19) (item header 18) (item header 17)
                          (item header 16) (item header 15) (item header 14);
  Ok (new (item header 0) (item header 2) created modified
          (item header 10) (item header 1) (item header 11) (item header 12)).

Definition serialize (self : t) : result bytes :=
  struct_pack FORMAT
    [ type self; unk1 self; size self;
      0; second (created self); minute (created self); hour (created self);
      day (created self); month (created self); year (created self);
      sectorAddress self; unk2 self; unk3 self;
      0; second (modified self); minute (modified self); hour (modified self);
      day (modified self); month (modified self); year (modified self) ].

(** [self.size = n] *)
Definition set_size (self : t) (n : Z) : t :=
  mk (type self) n (created self) (modified self)
     (sectorAddress self) (unk1 self) (unk2 self) (unk3 self).

End Header.

(** ** The UTF-8 codec of [str.encode] and [bytes.decode] (strict errors) *)

(** One code point; a surrogate or a value outside Unicode cannot be encoded. *)
Definition utf8_encode_char (c : Z) : result bytes :=
  if (0 <=? c) && (c <? 0x80) then
    Ok [byte_of_Z c]
  else if (0x80 <=? c) && (c <? 0x800) then
    Ok [byte_of_Z (0xC0 + c / 64); byte_of_Z (0x80 + c mod 64)]
  else if (0x800 <=? c) && (c <? 0x10000) then
    if (0xD800 <=? c) && (c <=? 0xDFFF) then Raise UnicodeEncodeError
    else Ok [byte_of_Z (0xE0 + c / 4096);
             byte_of_Z (0x80 + (c / 64) mod 64);
             byte_of_Z (0x80 + c mod 64)]
  else if (0x10000 <=? c) && (c <? 0x110000) then
    Ok [byte_of_Z (0xF0 + c / 262144);
        byte_of_Z (0x80 + (c / 4096) mod 64);
        byte_of_Z (0x80 + (c / 64) mod 64);
        byte_of_Z (0x80 + c mod 64)]
  else Raise UnicodeEncodeError.

(** [s.encode('UTF-8')] *)
Fixpoint str_encode (s : str) : result bytes :=
  match s with
  | [] => Ok []
  | c :: r =>
      b ← utf8_encode_char c;
      rest ← str_encode r;
      Ok (b ++ rest)
  end.

Definition in_range (lo hi x : Z) : bool := (lo <=? x) && (x <=? hi).

(** Bounds of the second byte after a three-byte lead (no overlong form, no
    surrogate) and after a four-byte lead (no overlong form, at most U+10FFFF). *)
Definition second_lo (lead : Z) : Z :=
  if lead =? 0xE0 then 0xA0 else if lead =? 0xF0 then 0x90 else 0x80.
Definition second_hi (lead : Z) : Z :=
  if lead =? 0xED then 0x9F else if lead =? 0xF4 then 0x8F else 0xBF.

(** [data.decode('UTF-8')] *)
Fixpoint bytes_decode (data : bytes) : result str :=
  match data with
  | [] => Ok []
  | b0 :: r0 =>
      let x0 := byte_to_Z b0 in
      if x0 <? 0x80 then
        s ← bytes_decode r0; Ok (x0 :: s)
      else if in_range 0xC2 0xDF x0 then
        match r0 with
        | b1 :: r1 =>
            let x1 := byte_to_Z b1 in
            if in_range 0x80 0xBF x1 then
              s ← bytes_decode r1;
              Ok (((x0 - 0xC0) * 64 + (x1 - 0x80)) :: s)
            else Raise UnicodeDecodeError
        | _ => Raise UnicodeDecodeError
        end
      else if in_range 0xE0 0xEF x0 then
        match r0 with
        | b1 :: b2 :: r2 =>
            let x1 := byte_to_Z b1 in
            let x2 := byte_to_Z b2 in
            if in_range (second_lo x0) (second_hi x0) x1 && in_range 0x80 0xBF x2 then
              s ← bytes_decode r2;
              Ok (((x0 - 0xE0) * 4096 + (x1 - 0x80) * 64 + (x2 - 0x80)) :: s)
            else Raise UnicodeDecodeError
        | _ => Raise UnicodeDecodeError
        end
      else if in_range 0xF0 0xF4 x0 then
        match r0 with
        | b1 :: b2 :: b3 :: r3 =>
            let x1 := byte_to_Z b1 in
            let x2 := byte_to_Z b2 in
            let x3 := byte_to_Z b3 in
            if in_range (second_lo x0) (second_hi x0) x1
               && in_range 0x80 0xBF x2 && in_range 0x80 0xBF x3 then
              s ← bytes_decode r3;
              Ok (((x0 - 0xF0) * 262144 + (x1 - 0x80) * 4096
                   + (x2 - 0x80) * 64 + (x3 - 0x80)) :: s)
            else Raise UnicodeDecodeError
        | _ => Raise UnicodeDecodeError
        end
      else Raise UnicodeDecodeError
  end.

(** [s.rstrip('\x00')] *)
Fixpoint rstrip_nul (s : str) : str :=
  match s with
  | [] => []
  | c :: r =>
      match rstrip_nul r with
      | [] => if c =? 0 then [] else [c]
      | r' => c :: r'
      end
  end.

(** [b.ljust(width, fill)]: never truncates. *)
Definition ljust (b : bytes) (width : nat) (fill : byte) : bytes :=
  b ++ replicate (width - length b) fill.

(** [data[:n]] for a Python integer [n]. *)
Definition slice_to (n : Z) (data : bytes) : bytes :=
  if 0 <=? n then take (Z.to_nat n) data
  else take (Z.to_nat (len data + n)) data.

(** ** [entry.py] *)

(** [class Type(IntEnum)] *)
Module EntryType.
Definition DIRECTORY : Z := 0x8427.
Definition FILE : Z := 0x8497.
End EntryType.

(** The Python class of an entry object; it selects the [serialize] that runs. *)
Inductive entry_class := DirectoryClass | FileClass.

Module Entry.

(** An entry object. [content] is an attribute of [File] objects; a
    [Directory] object has none until [PSU.write] assigns one. *)
Record t := mk {
  cls : entry_class;
  name : str;
  header : Header.t;
  padding : bytes;
  content : option bytes
}.

Definition PADDING_SIZE : nat := 32.
Definition NAME_SIZE : nat := 448.

Definition getPadding (data : bytes) : bytes := take PADDING_SIZE data.

Definition getName (data : bytes) : result str :=
  s ← bytes_decode (take NAME_SIZE data);
  Ok (rstrip_nul s).

(** [self.header.size = n] *)
Definition set_header_size (self : t) (n : Z) : t :=
  mk (cls self) (name self) (Header.set_size (header self) n)
     (padding self) (content self).

(** [self.content = data] *)
Definition set_content (self : t) (data : bytes) : t :=
  mk (cls self) (name self) (header self) (padding self) (Some data).

(** [Entry.serialize], the method of the base class. *)
Definition serialize (self : t) : result bytes :=
  data ← Header.serialize (header self);
  nm ← str_encode (name self);
  Ok (data ++ padding self ++ ljust nm NAME_SIZE x00).

Definition isFile (self : t) : bool :=
  bool_decide (Header.type (header self) = EntryType.FILE).

Definition isDirectory (self : t) : bool :=
  bool_decide (Header.type (header self) = EntryType.DIRECTORY).

Module Directory.

Definition new (now : datetime) (name : str) (fileCount : Z)
    (header : option Header.t) (padding : bytes) : t :=
  let header :=
    match header with
    | Some h => h
    | None => Header.new EntryType.DIRECTORY fileCount now now 0 0 0 0
    end in
  mk DirectoryClass name header padding None.

Definition deserialize (now : datetime) (header : Header.t) (padding : bytes)
    (name : str) (data : bytes) : t * Z :=
  (new now name (Header.size header) (Some header) padding, 0).

End Directory.

Module File.

Definition PAGE_SIZE : Z := 1024.

Definition getContentPaddingSize (contentSize : Z) : Z :=
  let remaining := PAGE_SIZE - (contentSize mod PAGE_SIZE) in
  if remaining =? PAGE_SIZE then 0 else remaining.

Definition new (now : datetime) (name : str) (content : bytes)
    (header : option Header.t) (padding : bytes) : t :=
  let header :=
    match header with
    | Some h => h
    | None => Header.new EntryType.FILE (len content) now now 0 0 0 0
    end in
  mk FileClass name header padding (Some content).

Definition deserialize (now : datetime) (header : Header.t) (padding : bytes)
    (name : str) (data : bytes) : t * Z :=
  let content := slice_to (Header.size header) data in
  let offset := Header.size header + getContentPaddingSize (Header.size header) in
  (new now name content (Some header) padding, offset).

(** [File.serialize]: assigns [header.size] first, so the receiver changes
    even when the encoding then raises. *)
Definition serialize (self : t) : t * result bytes :=
  match content self with
  | None => (self, Raise AttributeError)
  | Some c =>
      let self := set_header_size self (len c) in
      (self,
       data ← Entry.serialize self;
       if 0 <? Header.size (header self)
       then Ok (data ++ c ++ zeros (getContentPaddingSize (Header.size (header self))))
       else Ok data)
  end.

End File.

(** [entry.serialize()] on an object of either class. *)
Definition call_serialize (self : t) : t * result bytes :=
  match cls self with
  | FileClass => File.serialize self
  | DirectoryClass => (self, serialize self)
  end.

(** The static method [Entry.deserialize]. *)
Definition deserialize (now : datetime) (data : bytes) : result (t * Z) :=
  let offset := 0%nat in
  header ← Header.deserialize (take Header.SIZE (drop offset data));
  let offset := (offset + Header.SIZE)%nat in
  let padding := getPadding (take PADDING_SIZE (drop offset data)) in
  let offset := (offset + PADDING_SIZE)%nat in
  name ← getName (take NAME_SIZE (drop offset data));
  let offset := (offset + NAME_SIZE)%nat in
  if bool_decide (Header.type header = EntryType.FILE) then
    let '(entry, entrySize) := File.deserialize now header padding name (drop offset data) in
    Ok (entry, Z.of_nat offset + entrySize)
  else if bool_decide (Header.type header = EntryType.DIRECTORY) then
    let '(entry, entrySize) := Directory.deserialize now header padding name (drop offset data) in
    Ok (entry, Z.of_nat offset + entrySize)
  else Raise (UnknownEntryTypeException (Header.type header) name).

End Entry.

(** ** [psu.py] *)

(** The [data] argument of [PSU.write]: [bytes] or [str]. *)
Inductive pydata :=
  | PyBytes (b : bytes)
  | PyStr (s : str).

Module PSU.

(** The state of a [PSU] object is its list [self.entries]; each position
    holds an object of its own, as the parser and the constructors create
    them. The [filepath] attribute only names the file that [load] reads and
    [save] writes. *)
Abbreviation t := (list Entry.t).

(** [PSU(filepath)] *)
Definition init : t := [].

(** The loop of [__parse] from [offset] on. The bound [fuel] on the number of
    iterations makes the definition structural; [None] is an exhausted
    bound, which [parse_terminates] below shows does not occur. *)
Fixpoint parse_loop (now : datetime) (fuel : nat) (data : bytes)
    (offset : Z) (entries : t) : option (result t) :=
  if offset <? len data then
    match fuel with
    | O => None
    | S fuel' =>
        match Entry.deserialize now (drop (Z.to_nat offset) data) with
        | Ok (entry, size) =>
            parse_loop now fuel' data (offset + size) (entries ++ [entry])
        | Raise e => Some (Raise e)
        end
    end
  else Some (Ok entries).

(** [__parse(data)] *)
Definition parse (now : datetime) (data : bytes) : option (result t) :=
  parse_loop now (length data) data 0 [].

Definition add (self : t) (entry : Entry.t) : t := self ++ [entry].

(** [create(filepath)], given [base], the name of the file without its
    directories and extension:
    [os.path.splitext(os.path.basename(filepath))[0]]. *)
Definition create (now : datetime) (base : str) : t :=
  let psu := init in
  let psu := add psu (Entry.Directory.new now base 0 None (zeros 32)) in
  let psu := add psu (Entry.Directory.new now name_dot 0 None (zeros 32)) in
  let psu := add psu (Entry.Directory.new now name_dotdot 0 None (zeros 32)) in
  psu.

(** [__index(entryName, type)]: the first position that matches. *)
Definition index (self : t) (entryName : str) (type : option Z) : result nat :=
  match list_find
          (λ e, Entry.name e = entryName ∧
                (type = None ∨ Some (Header.type (Entry.header e)) = type)) self with
  | Some (i, _) => Ok i
  | None => Raise (EntryNotFoundException entryName)
  end.

(** [self.entries[i]] *)
Definition entries_item (self : t) (i : nat) : result Entry.t :=
  match self !! i with
  | Some e => Ok e
  | None => Raise IndexError
  end.

Definition get (self : t) (entryName : str) (type : option Z) : result Entry.t :=
  i ← index self entryName type;
  entries_item self i.

Definition has (self : t) (entryName : str) : result bool :=
  match get self entryName None with
  | Ok _ => Ok true
  | Raise (EntryNotFoundException _) => Ok false
  | Raise e => Raise e
  end.

(** [if type(data) == str: data = data.encode('UTF-8')] *)
Definition as_bytes (data : pydata) : result bytes :=
  match data with
  | PyStr s => str_encode s
  | PyBytes b => Ok b
  end.

(** [write(entryName, data)]: the new state and the entry returned. The
    object [get] returns is the one stored at the position [__index] finds,
    so assigning to its attributes updates that position. *)
Definition write (now : datetime) (self : t) (entryName : str) (data : pydata)
    : result (t * Entry.t) :=
  data ← as_bytes data;
  found ← has self entryName;
  if found : bool then
    i ← index self entryName None;
    entry ← entries_item self i;
    let entry := Entry.set_content entry data in
    let entry := Entry.set_header_size entry (len data) in
    Ok (<[i := entry]> self, entry)
  else
    let entry := Entry.File.new now entryName data None (zeros 32) in
    Ok (add self entry, entry).

Definition read (self : t) (entryName : str) : result bytes :=
  entry ← get self entryName (Some EntryType.FILE);
  match Entry.content entry with
  | Some c => Ok c
  | None => Raise AttributeError
  end.

(** The body of the loop of [save] for one entry: resolve the size of a
    directory, then serialize the entry. *)
Definition save_entry (n : Z) (entry : Entry.t) : Entry.t * result bytes :=
  let entry :=
    if bool_decide (Header.type (Entry.header entry) = EntryType.DIRECTORY) then
      if bool_decide (Entry.name entry = name_dot)
       || bool_decide (Entry.name entry = name_dotdot)
      then Entry.set_header_size entry 0
      else Entry.set_header_size entry (n - 1)
    else entry in
  Entry.call_serialize entry.

(** The loop of [save]: [done] are the entries already visited, [todo] those
    still to visit, [data] the bytes accumulated so far. An exception leaves
    the loop with the entries as they are at that point. *)
Fixpoint save_loop (n : Z) (done todo : t) (data : bytes) : t * result bytes :=
  match todo with
  | [] => (done, Ok data)
  | entry :: rest =>
      match save_entry n entry with
      | (entry, Ok b) => save_loop n (done ++ [entry]) rest (data ++ b)
      | (entry, Raise e) => (done ++ entry :: rest, Raise e)
      end
  end.

(** [save()] up to the file: the state afterwards and the bytes [data] that
    the loop hands to the file. *)
Definition save (self : t) : t * result bytes :=
  save_loop (len self) [] self [].

(** [save(filepath)] with the file. When the loop has returned [data], the
    last two lines run [with open(filepath, 'wb') as f: f.write(data)]. What
    opening and writing the file do is the environment's answer:
    [write_file filepath data] stands for the outcome of these two lines, a
    return or the exception they raise. [filepath] is the path after the
    default [self.filepath] has been filled in. *)
Definition save_file (write_file : str -> bytes -> result unit)
    (self : t) (filepath : str) : t * result unit :=
  let '(self, r) := save self in
  (self, data ← r; write_file filepath data).

Definition delete (self : t) (entryName : str) : result t :=
  index ← index self entryName None;
  Ok (delete index self).

Definition isFile (self : t) (entryName : str) : result bool :=
  entry ← get self entryName None;
  Ok (Entry.isFile entry).

Definition isDirectory (self : t) (entryName : str) : result bool :=
  entry ← get self entryName None;
  Ok (Entry.isDirectory entry).

(** [load(filepath)], given the bytes [f.read()] returns. *)
Definition load (now : datetime) (file : bytes) : option (result t) :=
  parse now file.

End PSU.

(** ** Notions the statements use *)

(** A date-time as it comes back from the wire: the format has no field for
    the microseconds. *)
Definition whole_seconds (t : datetime) : datetime :=
  mk_datetime (year t) (month t) (day t) (hour t) (minute t) (second t) 0.

Definition header_on_wire (h : Header.t) : Header.t :=
  Header.mk (Header.type h) (Header.size h)
            (whole_seconds (Header.created h)) (whole_seconds (Header.modified h))
            (Header.sectorAddress h) (Header.unk1 h) (Header.unk2 h) (Header.unk3 h).

(** The six fields of the two timestamps, as [struct.unpack] reads them from a
    32-byte buffer: year, month, day, hour, minute, second. *)
Definition wire_created (data : bytes) : Z * Z * Z * Z * Z * Z :=
  let f := unpack_fields Header.FORMAT data in
  (item f 9, item f 8, item f 7, item f 6, item f 5, item f 4).

Definition wire_modified (data : bytes) : Z * Z * Z * Z * Z * Z :=
  let f := unpack_fields Header.FORMAT data in
  (item f 19, item f 18, item f 17, item f 16, item f 15, item f 14).

(** The validity Python's [datetime] constructor checks. *)
Definition timestamp_valid (ts : Z * Z * Z * Z * Z * Z) : bool :=
  let '(y, mo, d, h, mi, s) := ts in
  date_fields_ok y mo d && time_fields_ok h mi s.


(** The value of [Type] that each entry class stands for. *)
Definition class_type (c : entry_class) : Z :=
  match c with
  | DirectoryClass => EntryType.DIRECTORY
  | FileClass => EntryType.FILE
  end.

(** The data model of an entry: a [Directory] object has a header of type
    DIRECTORY and a [File] object one of type FILE, the padding block has 32
    bytes, and the two timestamps are values of Python's [datetime]. *)
Definition entry_wf (e : Entry.t) : bool :=
  bool_decide (Header.type (Entry.header e) = class_type (Entry.cls e))
  && bool_decide (length (Entry.padding e) = Entry.PADDING_SIZE)
  && datetime_ok (Header.created (Entry.header e))
  && datetime_ok (Header.modified (Entry.header e)).

(** The name fits the fixed name field: at most 448 bytes in UTF-8. *)
Definition name_fits (s : str) : bool :=
  match str_encode s with
  | Ok bs => bool_decide (length bs ≤ Entry.NAME_SIZE)%nat
  | Raise _ => false
  end.

Definition no_trailing_nul (s : str) : bool := bool_decide (last s ≠ Some 0).

(** The entry that decoding yields for an encoded entry [e]: a [Directory]
    object comes back without a [content] attribute. *)
Definition entry_on_wire (e : Entry.t) : Entry.t :=
  Entry.mk (Entry.cls e) (Entry.name e) (header_on_wire (Entry.header e))
           (Entry.padding e)
           (match Entry.cls e with
            | FileClass => Entry.content e
            | DirectoryClass => None
            end).

(** The entry that one pass of the loop of [save] leaves in the list, and the
    bytes it contributes when its [serialize] returns. *)
Definition saved_entry (n : Z) (e : Entry.t) : Entry.t := (PSU.save_entry n e).1.

Definition saved_bytes (n : Z) (e : Entry.t) : bytes :=
  match (PSU.save_entry n e).2 with
  | Ok b => b
  | Raise _ => []
  end.

Definition entry_type (e : Entry.t) : Z := Header.type (Entry.header e).
Definition entry_size (e : Entry.t) : Z := Header.size (Entry.header e).

(** The content of a [File] object. *)
Definition file_content (e : Entry.t) : option bytes :=
  match Entry.cls e with
  | FileClass => Entry.content e
  | DirectoryClass => None
  end.

(** The fields of an entry that [save] packs without resolving them fit
    their codes: [type], [unk1], [sectorAddress] and [unk2] are [uint16],
    [unk3] is [uint32]; a file has a content of less than 2^32 bytes. *)
Definition entry_packable (e : Entry.t) : bool :=
  fmt_fits fmt_H (Header.type (Entry.header e))
  && fmt_fits fmt_H (Header.unk1 (Entry.header e))
  && fmt_fits fmt_H (Header.sectorAddress (Entry.header e))
  && fmt_fits fmt_H (Header.unk2 (Entry.header e))
  && fmt_fits fmt_I (Header.unk3 (Entry.header e))
  && match Entry.cls e with
     | FileClass =>
         match Entry.content e with
         | Some c => fmt_fits fmt_I (len c)
         | None => false
         end
     | DirectoryClass => true
     end.

(** ** A sample archive

    The archive that [PSU.create('mygame.psu')] followed by
    [write('icon.sys', b'\x00' * 10)] builds: three directories and a file. *)

Definition sample_now : datetime := mk_datetime 2024 2 29 23 59 58 123456.

(** "mygame" and "icon.sys" as code points. *)
Definition name_mygame : str := [109; 121; 103; 97; 109; 101].
Definition name_icon_sys : str := [105; 99; 111; 110; 46; 115; 121; 115].

Definition sample_dirs : PSU.t := PSU.create sample_now name_mygame.

Definition sample_archive : PSU.t :=
  match PSU.write sample_now sample_dirs name_icon_sys (PyBytes (replicate 10 x00)) with
  | Ok (psu, _) => psu
  | Raise _ => []
  end.

Definition sample_saved : PSU.t := (PSU.save sample_archive).1.

Definition sample_bytes : bytes :=
  match (PSU.save sample_archive).2 with
  | Ok b => b
  | Raise _ => []
  end.


(** ** Directory sizes *)

(** A directory entry: a [Directory] object whose header has type DIRECTORY. *)
Definition is_directory (e : Entry.t) : Prop :=
  Entry.cls e = DirectoryClass /\ entry_type e = EntryType.DIRECTORY.

(** The size a directory named [name] gets in an archive of [n] entries. *)
Definition resolved_size (n : Z) (name : str) : Z :=
  if bool_decide (name = name_dot) || bool_decide (name = name_dotdot)
  then 0 else n - 1.

(** Every directory entry of [es] holds the size resolved for [n] entries. *)
Definition sizes_resolved (n : Z) (es : PSU.t) : Prop :=
  Forall (fun e => is_directory e -> entry_size e = resolved_size n (Entry.name e)) es.

(** The [size] field of an encoded entry: the [uint32] at offset 4. *)
Definition wire_size (bs : bytes) : Z := le_value (take 4 (drop 4 bs)).

(** A file whose name is a lone surrogate, which UTF-8 cannot encode, followed
    by a directory that holds the stale size 7. *)
Definition name_x : str := [120].

Definition unencodable_archive : PSU.t :=
  [ Entry.File.new sample_now [0xD800] [] None (zeros 32);
    Entry.Directory.new sample_now name_x 7 None (zeros 32) ].

(** The file entry of the sample archive, with a stale [header.size]. *)
Definition sample_file : Entry.t :=
  Entry.set_header_size
    (Entry.File.new sample_now name_icon_sys (replicate 10 x00) None (zeros 32)) 4096.

(** ** Timestamps on the wire *)

(** The validity of a timestamp in the words of the specification: month
    1-12, day valid for the month and year, hour at most 23, minute and second
    at most 59, year at least 1. *)
Definition claimed_valid (ts : Z * Z * Z * Z * Z * Z) : bool :=
  let '(y, mo, d, h, mi, s) := ts in
  (1 <=? mo) && (mo <=? 12) && (1 <=? d) && (d <=? days_in_month y mo)
  && (h <=? 23) && (mi <=? 59) && (s <=? 59) && (1 <=? y).

Definition timestamp_year (ts : Z * Z * Z * Z * Z * Z) : Z :=
  let '(y, _, _, _, _, _) := ts in y.

(** The same, with the upper bound [MAXYEAR] of [datetime] on the year. *)
Definition timestamp_in_range (ts : Z * Z * Z * Z * Z * Z) : bool :=
  claimed_valid ts && (timestamp_year ts <=? 9999).

(** The 32 bytes of a header with the given twenty fields. *)
Definition pack_header_fields (vals : list Z) : bytes :=
  match struct_pack Header.FORMAT vals with
  | Ok b => b
  | Raise _ => []
  end.

(** A directory header whose two timestamps are 1 January 10000, 00:00:00. *)
Definition year_10000_header : bytes :=
  pack_header_fields
    [0x8427; 0; 0;  0; 0; 0; 0; 1; 1; 10000;  0; 0; 0;  0; 0; 0; 0; 1; 1; 10000].

(** A directory header whose two timestamps are 29 February 2024, 23:59:58. *)
Definition leap_day_header : bytes :=
  pack_header_fields
    [0x8427; 0; 0;  0; 58; 59; 23; 29; 2; 2024;  0; 0; 0;  0; 58; 59; 23; 29; 2; 2024].

(** ** Buffers for the decoding of entries *)

(** The 32 bytes of a header of the given type and size, with the timestamps
    of [leap_day_header]. *)
Definition header_bytes (type size : Z) : bytes :=
  pack_header_fields
    [type; 0; size;  0; 58; 59; 23; 29; 2; 2024;  0; 0; 0;  0; 58; 59; 23; 29; 2; 2024].

(** An entry of the unknown type 0x0001 whose name field starts with the
    byte 0xFF, which is not UTF-8. *)
Definition unknown_type_bad_name : bytes :=
  header_bytes 0x0001 0 ++ zeros 32 ++ ljust [xff] 448 x00.

(** An entry of the unknown type 0x0001 named "x". *)
Definition unknown_type_entry : bytes :=
  header_bytes 0x0001 0 ++ zeros 32 ++ ljust [x78] 448 x00.

(** A file entry that announces 5 bytes of content and stops after its name
    field, once with the name "x" and once with a name field that is not
    UTF-8. *)
Definition truncated_file : bytes :=
  header_bytes 0x8497 5 ++ zeros 32 ++ ljust [x78] 448 x00.

Definition truncated_file_bad_name : bytes :=
  header_bytes 0x8497 5 ++ zeros 32 ++ ljust [xff] 448 x00.

(** The exception with which the decoding of an entry of unknown type ends:
    [UnknownEntryTypeException] with the type and the name when the name field
    decodes, the exception of the name's decoding otherwise. *)
Definition unknown_type_outcome (type : Z) (name : result str) : exn :=
  match name with
  | Ok nm => UnknownEntryTypeException type nm
  | Raise x => x
  end.

(** ** An archive read from a buffer that ends inside the padding block *)

(** A directory header followed by 8 bytes: a buffer of 40 bytes. *)
Definition short_buffer : bytes := header_bytes 0x8427 0 ++ zeros 8.

(** The entry [__parse] returns for [short_buffer]: a directory with the empty
    name, whose padding block has the 8 bytes that were there. *)
Definition short_padding_directory : Entry.t :=
  Entry.Directory.new sample_now [] 0
    (Some (Header.new EntryType.DIRECTORY 0
             (whole_seconds sample_now) (whole_seconds sample_now) 0 0 0 0))
    (zeros 8).

(** "f" and [b'abc'] *)
Definition name_f : str := [102].
Definition content_abc : bytes := [x61; x62; x63].

(** The archive after [write('f', b'abc')]. *)
Definition short_padding_archive : PSU.t :=
  [ short_padding_directory;
    Entry.File.new sample_now name_f content_abc None (zeros 32) ].

(** ** Notions of the further properties *)

(** The integer fields of a header fit their codes. *)
Definition header_fits (h : Header.t) : bool :=
  fmt_fits fmt_H (Header.type h) && fmt_fits fmt_H (Header.unk1 h)
  && fmt_fits fmt_I (Header.size h) && fmt_fits fmt_H (Header.sectorAddress h)
  && fmt_fits fmt_H (Header.unk2 h) && fmt_fits fmt_I (Header.unk3 h).

(** [entry] answers a lookup for [entryName] restricted to [type]: the test of
    the loop of [__index]. *)
Definition entry_matches (entryName : str) (type : option Z) (e : Entry.t) : Prop :=
  Entry.name e = entryName /\ (type = None \/ Some (entry_type e) = type).

(** [e], at position [i], is the first entry of [A] that matches. *)
Definition first_match (A : PSU.t) (entryName : str) (type : option Z)
    (i : nat) (e : Entry.t) : Prop :=
  A !! i = Some e /\ entry_matches entryName type e /\
  forall j e', (j < i)%nat -> A !! j = Some e' -> ~ entry_matches entryName type e'.

(** The number of bytes an entry with a 32-byte padding block and a name that
    fits takes in the file. *)
Definition entry_wire_length (e : Entry.t) : Z :=
  match Entry.cls e, Entry.content e with
  | FileClass, Some c => 512 + len c + Entry.File.getContentPaddingSize (len c)
  | _, _ => 512
  end.

(** What [__parse] guarantees of every entry it returns. *)
Definition parsed_ok (e : Entry.t) : Prop :=
  entry_type e = class_type (Entry.cls e) /\
  datetime_ok (Header.created (Entry.header e)) = true /\
  datetime_ok (Header.modified (Entry.header e)) = true /\
  0 <= entry_size e < 2 ^ 32 /\
  (length (Entry.padding e) <= 32)%nat /\
  match Entry.cls e with
  | FileClass => exists c, Entry.content e = Some c /\ len c <= entry_size e
  | DirectoryClass => Entry.content e = None
  end.

(** A header whose size does not fit a [uint32]. *)
Definition oversized_header : Header.t :=
  Header.new EntryType.FILE (2 ^ 32) sample_now sample_now 0 0 0 0.

(** A name of 150 euro signs: 450 bytes in UTF-8. *)
Definition long_name : str := replicate 150 0x20AC.

Definition long_name_entry : Entry.t :=
  Entry.Directory.new sample_now long_name 0 None (zeros 32).

(** "save" followed by two NUL characters. *)
Definition name_save_nul : str := [115; 97; 118; 101; 0; 0].

(** A directory named "x" in front of a file named "x" that holds one byte. *)
Definition shadowed_archive : PSU.t :=
  [ Entry.Directory.new sample_now name_x 0 None (zeros 32);
    Entry.File.new sample_now name_x [x01] None (zeros 32) ].

(** The sample archive's file with a 16-byte fragment of a further entry
    after it. *)
Definition sample_bytes_with_fragment : bytes := sample_bytes ++ replicate 16 xff.

(** An environment in which the file cannot be opened, as for a path in a
    directory that does not exist, and one in which it is written. *)
Definition no_such_directory (filepath : str) (data : bytes) : result unit :=
  Raise OSError.

Definition file_written (filepath : str) (data : bytes) : result unit := Ok tt.

(** "out.psu" *)
Definition path_out_psu : str := [111; 117; 116; 46; 112; 115; 117].

(** * Properties *)

(** ** Bytes and little-endian integers *)

Lemma byte_to_Z_range (b : byte) : 0 <= byte_to_Z b < 256.
Proof.
  unfold byte_to_Z. pose proof (Byte.to_N_bounded b). lia.
Qed.

Lemma byte_to_of_Z (z : Z) : 0 <= z < 256 -> byte_to_Z (byte_of_Z z) = z.
Proof.
  intros Hz. unfold byte_to_Z, byte_of_Z.
  destruct (Byte.of_N (Z.to_N z)) as [b|] eqn:E.
  - apply Byte.to_of_N in E. rewrite E. lia.
  - apply Byte.of_N_None_iff in E. lia.
Qed.

Lemma byte_of_to_Z (b : byte) : byte_of_Z (byte_to_Z b) = b.
Proof.
  unfold byte_to_Z, byte_of_Z. rewrite N2Z.id, Byte.of_to_N. reflexivity.
Qed.

Lemma len_app {A} (l k : list A) : len (l ++ k) = len l + len k.
Proof. unfold len. rewrite length_app. lia. Qed.

Lemma len_nonneg {A} (l : list A) : 0 <= len l.
Proof. unfold len. lia. Qed.

Lemma length_zeros (n : Z) : length (zeros n) = Z.to_nat n.
Proof. unfold zeros. apply length_replicate. Qed.

Lemma length_le_bytes (w : nat) (v : Z) : length (le_bytes w v) = w.
Proof.
  revert v. induction w as [|w IH]; intros v; simpl; [reflexivity|].
  now rewrite IH.
Qed.

Lemma le_value_le_bytes (w : nat) (v : Z) :
  0 <= v < 256 ^ Z.of_nat w -> le_value (le_bytes w v) = v.
Proof.
  revert v. induction w as [|w IH]; intros v Hv.
  - simpl in *. lia.
  - rewrite Nat2Z.inj_succ, Z.pow_succ_r in Hv by lia.
    simpl. rewrite byte_to_of_Z by (apply Z.mod_pos_bound; lia).
    rewrite IH.
    + pose proof (Z.div_mod v 256). lia.
    + split; [apply Z.div_pos; lia | apply Z.div_lt_upper_bound; lia].
Qed.

Lemma le_value_range (bs : bytes) : 0 <= le_value bs < 256 ^ len bs.
Proof.
  unfold len. induction bs as [|b r IH].
  - simpl. lia.
  - cbn [le_value length]. rewrite Nat2Z.inj_succ, Z.pow_succ_r by lia.
    pose proof (byte_to_Z_range b). lia.
Qed.

(** ** [struct.pack] and [struct.unpack] *)

Lemma struct_pack_length fmt vals bs :
  struct_pack fmt vals = Ok bs -> length bs = calcsize fmt.
Proof.
  revert vals bs. induction fmt as [|c f IH]; intros [|v vs] bs H; simpl in H;
    try discriminate.
  - now inversion H.
  - destruct (fmt_fits c v); [|discriminate].
    destruct (struct_pack f vs) as [rest|] eqn:E; simpl in H; [|discriminate].
    inversion H; subst. rewrite length_app, length_le_bytes. simpl.
    f_equal. eauto.
Qed.

Lemma unpack_fields_pack fmt vals bs rest :
  struct_pack fmt vals = Ok bs -> unpack_fields fmt (bs ++ rest) = vals.
Proof.
  revert vals bs. induction fmt as [|c f IH]; intros [|v vs] bs H; simpl in H;
    try discriminate.
  - reflexivity.
  - destruct (fmt_fits c v) eqn:Hfit; [|discriminate].
    destruct (struct_pack f vs) as [tl|] eqn:E; simpl in H; [|discriminate].
    inversion H; subst. cbn [unpack_fields].
    rewrite <- app_assoc.
    rewrite take_app_length' by (symmetry; apply length_le_bytes).
    rewrite drop_app_length' by (symmetry; apply length_le_bytes).
    rewrite (IH _ _ E). f_equal.
    apply le_value_le_bytes.
    unfold fmt_fits in Hfit. apply andb_true_iff in Hfit as [H1 H2]. lia.
Qed.

Lemma struct_unpack_pack fmt vals bs :
  struct_pack fmt vals = Ok bs -> struct_unpack fmt bs = Ok vals.
Proof.
  intros H. unfold struct_unpack.
  rewrite (struct_pack_length _ _ _ H).
  destruct (decide _) as [_|Hne]; [|congruence].
  rewrite <- (app_nil_r bs). now rewrite (unpack_fields_pack _ _ _ [] H).
Qed.

Lemma struct_unpack_wrong_size fmt data :
  length data <> calcsize fmt -> struct_unpack fmt data = Raise StructError.
Proof.
  intros H. unfold struct_unpack. destruct (decide _); [contradiction|reflexivity].
Qed.

(** Every value [struct.unpack] returns is a non-negative integer that fits
    its code. *)
Lemma unpack_fields_fits fmt data :
  Forall2 (fun c v => 0 <= v < 256 ^ Z.of_nat (fmt_width c)) fmt (unpack_fields fmt data).
Proof.
  revert data. induction fmt as [|c f IH]; intros data; simpl; constructor.
  - pose proof (le_value_range (take (fmt_width c) data)) as H.
    split; [lia|].
    eapply Z.lt_le_trans; [apply H|].
    apply Z.pow_le_mono_r; [lia|]. unfold len. rewrite length_take. lia.
  - apply IH.
Qed.

(** ** The header codec *)

Lemma calcsize_FORMAT : calcsize Header.FORMAT = 32%nat.
Proof. reflexivity. Qed.

Lemma header_serialize_length h bs :
  Header.serialize h = Ok bs -> length bs = 32%nat.
Proof.
  intros H. apply struct_pack_length in H. now rewrite calcsize_FORMAT in H.
Qed.

Lemma header_deserialize_wrong_size data :
  length data <> 32%nat -> Header.deserialize data = Raise StructError.
Proof.
  intros H. unfold Header.deserialize.
  rewrite struct_unpack_wrong_size; [reflexivity|].
  now rewrite calcsize_FORMAT.
Qed.

Lemma datetime_new_ok t :
  datetime_ok t = true ->
  datetime_new (year t) (month t) (day t) (hour t) (minute t) (second t)
  = Ok (whole_seconds t).
Proof.
  unfold datetime_ok, datetime_new. intros ->. reflexivity.
Qed.

Lemma header_deserialize_serialize h bs :
  datetime_ok (Header.created h) = true ->
  datetime_ok (Header.modified h) = true ->
  Header.serialize h = Ok bs ->
  Header.deserialize bs = Ok (header_on_wire h).
Proof.
  intros Hc Hm H. unfold Header.serialize in H.
  unfold Header.deserialize. rewrite (struct_unpack_pack _ _ _ H).
  cbn [mbind result_bind item nth].
  rewrite (datetime_new_ok _ Hc). cbn [mbind result_bind].
  rewrite (datetime_new_ok _ Hm). reflexivity.
Qed.

Lemma header_deserialize_32 data :
  length data = 32%nat ->
  Header.deserialize data =
    if timestamp_valid (wire_created data) && timestamp_valid (wire_modified data)
    then
      let f := unpack_fields Header.FORMAT data in
      Ok (Header.new (item f 0) (item f 2)
            (mk_datetime (item f 9) (item f 8) (item f 7) (item f 6) (item f 5) (item f 4) 0)
            (mk_datetime (item f 19) (item f 18) (item f 17) (item f 16) (item f 15) (item f 14) 0)
            (item f 10) (item f 1) (item f 11) (item f 12))
    else Raise ValueError.
Proof.
  intros Hlen. unfold Header.deserialize, struct_unpack.
  rewrite calcsize_FORMAT. destruct (decide _) as [_|]; [|contradiction].
  cbn [mbind result_bind]. unfold wire_created, wire_modified, timestamp_valid, datetime_new.
  set (f := unpack_fields Header.FORMAT data).
  destruct (date_fields_ok (item f 9) _ _ && time_fields_ok (item f 6) _ _);
    cbn [mbind result_bind andb]; [|reflexivity].
  destruct (date_fields_ok (item f 19) _ _ && time_fields_ok (item f 16) _ _);
    reflexivity.
Qed.

(** The fields of a decoded header lie in the ranges of their wire types. *)
Lemma header_deserialize_size_range data h :
  Header.deserialize data = Ok h -> 0 <= Header.size h < 2 ^ 32.
Proof.
  unfold Header.deserialize, struct_unpack. destruct (decide _); [|discriminate].
  cbn [mbind result_bind]. intros H.
  pose proof (unpack_fields_fits Header.FORMAT data) as Hf.
  do 2 destruct (datetime_new _ _ _ _ _ _); cbn [mbind result_bind] in H;
    try discriminate.
  inversion H; subst; clear H. cbn [Header.size Header.new].
  unfold Header.FORMAT in Hf. cbn [replicate app] in Hf.
  cbn [unpack_fields] in *.
  repeat match goal with H : Forall2 _ (_ :: _) (_ :: _) |- _ =>
    apply Forall2_cons in H as [? H] end.
  cbn [item nth fmt_width] in *. lia.
Qed.

(** ** The UTF-8 codec *)

Lemma in_range_true lo hi x : lo <= x <= hi -> in_range lo hi x = true.
Proof. unfold in_range. intros H. apply andb_true_iff. lia. Qed.

Lemma in_range_false lo hi x : x < lo \/ hi < x -> in_range lo hi x = false.
Proof. unfold in_range. intros H. apply andb_false_iff. lia. Qed.

Lemma ltb_true x y : x < y -> (x <? y) = true.
Proof. lia. Qed.

Lemma ltb_false x y : y <= x -> (x <? y) = false.
Proof. lia. Qed.

Lemma second_lo_le lead x :
  (lead = 0xE0 -> 0xA0 <= x) -> (lead = 0xF0 -> 0x90 <= x) -> 0x80 <= x ->
  second_lo lead <= x.
Proof.
  intros H1 H2 H3. unfold second_lo.
  destruct (Z.eqb_spec lead 0xE0); [auto|].
  destruct (Z.eqb_spec lead 0xF0); auto.
Qed.

Lemma second_hi_ge lead x :
  (lead = 0xED -> x <= 0x9F) -> (lead = 0xF4 -> x <= 0x8F) -> x <= 0xBF ->
  x <= second_hi lead.
Proof.
  intros H1 H2 H3. unfold second_hi.
  destruct (Z.eqb_spec lead 0xED); [auto|].
  destruct (Z.eqb_spec lead 0xF4); auto.
Qed.

Ltac split_andb :=
  repeat match goal with
  | H : _ && _ = true |- _ => apply andb_true_iff in H as [? ?]
  | H : _ && _ = false |- _ => apply andb_false_iff in H
  end.

(** Decoding the encoding of one code point gives it back, whatever follows. *)
Lemma bytes_decode_encode_char c bs rest :
  utf8_encode_char c = Ok bs ->
  bytes_decode (bs ++ rest) = (s ← bytes_decode rest; Ok (c :: s)).
Proof.
  unfold utf8_encode_char.
  destruct ((0 <=? c) && (c <? 0x80)) eqn:E1.
  { intros [= <-]. split_andb. cbn [app bytes_decode].
    rewrite byte_to_of_Z by lia. rewrite ltb_true by lia. reflexivity. }
  destruct ((0x80 <=? c) && (c <? 0x800)) eqn:E2.
  { intros [= <-]. split_andb. cbn [app bytes_decode].
    assert (0xC2 <= 0xC0 + c / 64 <= 0xDF) by (Z.to_euclidean_division_equations; lia).
    assert (0x80 <= 0x80 + c mod 64 <= 0xBF) by (Z.to_euclidean_division_equations; lia).
    rewrite !byte_to_of_Z by lia.
    rewrite ltb_false by lia. rewrite !in_range_true by lia.
    replace ((0xC0 + c / 64 - 0xC0) * 64 + (0x80 + c mod 64 - 0x80)) with c
      by (Z.to_euclidean_division_equations; lia).
    reflexivity. }
  destruct ((0x800 <=? c) && (c <? 0x10000)) eqn:E3.
  { destruct ((0xD800 <=? c) && (c <=? 0xDFFF)) eqn:E4; [discriminate|].
    intros [= <-]. clear E1 E2. split_andb. cbn [app bytes_decode].
    assert (0xE0 <= 0xE0 + c / 4096 <= 0xEF) by (Z.to_euclidean_division_equations; lia).
    assert (0x80 <= 0x80 + (c / 64) mod 64 <= 0xBF) by (Z.to_euclidean_division_equations; lia).
    assert (0x80 <= 0x80 + c mod 64 <= 0xBF) by (Z.to_euclidean_division_equations; lia).
    rewrite !byte_to_of_Z by lia.
    rewrite ltb_false by lia. rewrite (in_range_false 0xC2) by lia.
    rewrite (in_range_true 0xE0) by lia.
    rewrite (in_range_true (second_lo _)).
    2:{ split; [apply second_lo_le | apply second_hi_ge];
          intros; Z.to_euclidean_division_equations; lia. }
    rewrite (in_range_true 0x80) by lia. cbn [andb].
    replace ((0xE0 + c / 4096 - 0xE0) * 4096 + (0x80 + (c / 64) mod 64 - 0x80) * 64
             + (0x80 + c mod 64 - 0x80)) with c
      by (Z.to_euclidean_division_equations; lia).
    reflexivity. }
  destruct ((0x10000 <=? c) && (c <? 0x110000)) eqn:E4; [|discriminate].
  intros [= <-]. clear E1 E2 E3. split_andb. cbn [app bytes_decode].
  assert (0xF0 <= 0xF0 + c / 262144 <= 0xF4) by (Z.to_euclidean_division_equations; lia).
  assert (0x80 <= 0x80 + (c / 4096) mod 64 <= 0xBF) by (Z.to_euclidean_division_equations; lia).
  assert (0x80 <= 0x80 + (c / 64) mod 64 <= 0xBF) by (Z.to_euclidean_division_equations; lia).
  assert (0x80 <= 0x80 + c mod 64 <= 0xBF) by (Z.to_euclidean_division_equations; lia).
  rewrite !byte_to_of_Z by lia.
  rewrite ltb_false by lia. rewrite (in_range_false 0xC2) by lia.
  rewrite (in_range_false 0xE0) by lia. rewrite (in_range_true 0xF0) by lia.
  rewrite (in_range_true (second_lo _)).
  2:{ split; [apply second_lo_le | apply second_hi_ge];
        intros; Z.to_euclidean_division_equations; lia. }
  rewrite !(in_range_true 0x80) by lia. cbn [andb].
  replace ((0xF0 + c / 262144 - 0xF0) * 262144 + (0x80 + (c / 4096) mod 64 - 0x80) * 4096
           + (0x80 + (c / 64) mod 64 - 0x80) * 64 + (0x80 + c mod 64 - 0x80)) with c
    by (Z.to_euclidean_division_equations; lia).
  reflexivity.
Qed.

Lemma bytes_decode_encode s bs rest :
  str_encode s = Ok bs ->
  bytes_decode (bs ++ rest) = (s' ← bytes_decode rest; Ok (s ++ s')).
Proof.
  revert bs. induction s as [|c r IH]; intros bs H; simpl in H.
  - inversion H; subst. simpl. destruct (bytes_decode rest); reflexivity.
  - destruct (utf8_encode_char c) as [b|] eqn:Ec; cbn [mbind result_bind] in H; [|discriminate].
    destruct (str_encode r) as [tl|] eqn:Er; cbn [mbind result_bind] in H; [|discriminate].
    inversion H; subst. rewrite <- app_assoc.
    rewrite (bytes_decode_encode_char _ _ _ Ec), (IH _ eq_refl).
    destruct (bytes_decode rest); reflexivity.
Qed.

Lemma bytes_decode_zeros (k : nat) : bytes_decode (replicate k x00) = Ok (replicate k 0).
Proof.
  induction k as [|k IH]; [reflexivity|].
  cbn [replicate bytes_decode]. change (byte_to_Z x00) with 0.
  rewrite ltb_true by lia. now rewrite IH.
Qed.

Lemma rstrip_nul_zeros (k : nat) : rstrip_nul (replicate k 0) = [].
Proof. induction k as [|k IH]; [reflexivity|]. simpl. now rewrite IH. Qed.

Lemma rstrip_nul_app_zeros s (k : nat) : rstrip_nul (s ++ replicate k 0) = rstrip_nul s.
Proof.
  induction s as [|c r IH]; simpl.
  - apply rstrip_nul_zeros.
  - now rewrite IH.
Qed.

Lemma rstrip_nul_id s : last s <> Some 0 -> rstrip_nul s = s.
Proof.
  induction s as [|c r IH]; intros H; [reflexivity|].
  destruct r as [|c' r'].
  - simpl in *. destruct (Z.eqb_spec c 0); congruence.
  - change (last (c :: c' :: r')) with (last (c' :: r')) in H.
    cbn [rstrip_nul] in *. rewrite (IH H). reflexivity.
Qed.

(** A name written into the name field of the wire and read back. *)
Lemma getName_ljust s bs (w : nat) :
  str_encode s = Ok bs ->
  last s <> Some 0 ->
  bytes_decode (ljust bs w x00) = Ok (s ++ replicate (w - length bs) 0) /\
  rstrip_nul (s ++ replicate (w - length bs) 0) = s.
Proof.
  intros He Hl. unfold ljust. split.
  - rewrite (bytes_decode_encode _ _ _ He), bytes_decode_zeros. reflexivity.
  - rewrite rstrip_nul_app_zeros. now apply rstrip_nul_id.
Qed.

(** ** The entry codec *)

(** [Entry.deserialize] with its offsets computed. *)
Lemma entry_deserialize_eq now data :
  Entry.deserialize now data =
    (header ← Header.deserialize (take 32 data);
     name ← Entry.getName (take 448 (drop 64 data));
     let padding := Entry.getPadding (take 32 (drop 32 data)) in
     if bool_decide (Header.type header = EntryType.FILE) then
       Ok (Entry.File.new now name (slice_to (Header.size header) (drop 512 data))
             (Some header) padding,
           512 + (Header.size header
                  + Entry.File.getContentPaddingSize (Header.size header)))
     else if bool_decide (Header.type header = EntryType.DIRECTORY) then
       Ok (Entry.Directory.new now name (Header.size header) (Some header) padding,
           512 + 0)
     else Raise (UnknownEntryTypeException (Header.type header) name)).
Proof. reflexivity. Qed.

Lemma wire_slices (hb pad nf rest : bytes) :
  length hb = 32%nat -> length pad = 32%nat -> length nf = 448%nat ->
  let data := hb ++ pad ++ nf ++ rest in
  take 32 data = hb /\ take 32 (drop 32 data) = pad /\
  take 448 (drop 64 data) = nf /\ drop 512 data = rest.
Proof.
  intros Hh Hp Hn data. subst data.
  assert (D32 : drop 32 (hb ++ pad ++ nf ++ rest) = pad ++ nf ++ rest)
    by now apply drop_app_length'.
  assert (D64 : drop 64 (hb ++ pad ++ nf ++ rest) = nf ++ rest).
  { change 64%nat with (32 + 32)%nat. rewrite <- drop_drop, D32.
    now apply drop_app_length'. }
  repeat split.
  - now apply take_app_length'.
  - rewrite D32. now apply take_app_length'.
  - rewrite D64. now apply take_app_length'.
  - change 512%nat with (64 + 448)%nat. rewrite <- drop_drop, D64.
    now apply drop_app_length'.
Qed.

Lemma length_ljust (b : bytes) (w : nat) (fill : byte) :
  (length b <= w)%nat -> length (ljust b w fill) = w.
Proof. intros H. unfold ljust. rewrite length_app, length_replicate. lia. Qed.

Lemma entry_serialize_inv e bs :
  Entry.serialize e = Ok bs ->
  exists hb nm,
    Header.serialize (Entry.header e) = Ok hb /\
    str_encode (Entry.name e) = Ok nm /\
    bs = hb ++ Entry.padding e ++ ljust nm 448 x00.
Proof.
  unfold Entry.serialize. intros H.
  destruct (Header.serialize _) as [hb|]; cbn [mbind result_bind] in H; [|discriminate].
  destruct (str_encode _) as [nm|]; cbn [mbind result_bind] in H; [|discriminate].
  inversion H. eauto.
Qed.

Lemma getContentPaddingSize_range n :
  0 <= Entry.File.getContentPaddingSize n < 1024.
Proof.
  unfold Entry.File.getContentPaddingSize, Entry.File.PAGE_SIZE.
  destruct (Z.eqb_spec (1024 - n mod 1024) 1024); Z.to_euclidean_division_equations; lia.
Qed.

Lemma getContentPaddingSize_formula n :
  Entry.File.getContentPaddingSize n = (1024 - n mod 1024) mod 1024.
Proof.
  unfold Entry.File.getContentPaddingSize, Entry.File.PAGE_SIZE.
  destruct (Z.eqb_spec (1024 - n mod 1024) 1024); Z.to_euclidean_division_equations; lia.
Qed.

Lemma slice_to_len_app (c rest : bytes) : slice_to (len c) (c ++ rest) = c.
Proof.
  unfold slice_to, len. rewrite (proj2 (Z.leb_le _ _)) by lia.
  rewrite Nat2Z.id. apply take_app_length.
Qed.

Ltac unfold_wf H :=
  unfold entry_wf in H;
  repeat (apply andb_true_iff in H; destruct H as [H ?]);
  repeat match goal with
  | H : bool_decide _ = true |- _ => apply bool_decide_eq_true in H
  end.

(** The header, padding and name, written by [Entry.serialize] and read back. *)
Lemma entry_head_roundtrip e bs rest :
  entry_wf e = true ->
  name_fits (Entry.name e) = true ->
  no_trailing_nul (Entry.name e) = true ->
  Entry.serialize e = Ok bs ->
  length bs = 512%nat /\
  Header.deserialize (take 32 (bs ++ rest)) = Ok (header_on_wire (Entry.header e)) /\
  Entry.getPadding (take 32 (drop 32 (bs ++ rest))) = Entry.padding e /\
  Entry.getName (take 448 (drop 64 (bs ++ rest))) = Ok (Entry.name e) /\
  drop 512 (bs ++ rest) = rest.
Proof.
  intros Hwf Hfit Hnul Hs.
  apply entry_serialize_inv in Hs as (hb & nm & Hh & Hn & ->).
  unfold_wf Hwf. unfold name_fits in Hfit. rewrite Hn in Hfit.
  apply bool_decide_eq_true in Hfit. apply bool_decide_eq_true in Hnul.
  pose proof (header_serialize_length _ _ Hh) as Lh.
  pose proof (length_ljust nm 448 x00 Hfit) as Ln.
  assert (Lp : length (Entry.padding e) = 32%nat) by assumption.
  rewrite <- !app_assoc.
  destruct (wire_slices hb (Entry.padding e) (ljust nm 448 x00) rest Lh Lp Ln)
    as (-> & -> & -> & ->).
  split; [rewrite !length_app; lia|].
  split; [now apply header_deserialize_serialize|].
  split; [unfold Entry.getPadding; now apply take_ge; rewrite Lp|].
  split; [|reflexivity].
  unfold Entry.getName. rewrite take_ge by (rewrite Ln; reflexivity).
  destruct (getName_ljust _ _ 448 Hn Hnul) as [-> Hr].
  cbn [mbind result_bind]. now rewrite Hr.
Qed.

Lemma entry_wf_set_header_size e n :
  entry_wf (Entry.set_header_size e n) = entry_wf e.
Proof. reflexivity. Qed.

Lemma type_FILE_ne_DIRECTORY : EntryType.FILE <> EntryType.DIRECTORY.
Proof. discriminate. Qed.

(** One entry, written by its [serialize] method and read back by
    [Entry.deserialize], whatever bytes follow it. *)
Lemma entry_roundtrip now e e' bs rest :
  entry_wf e = true ->
  name_fits (Entry.name e) = true ->
  no_trailing_nul (Entry.name e) = true ->
  Entry.call_serialize e = (e', Ok bs) ->
  Entry.deserialize now (bs ++ rest) = Ok (entry_on_wire e', len bs) /\
  512 <= len bs.
Proof.
  intros Hwf Hfit Hnul Hs. unfold Entry.call_serialize in Hs.
  pose proof Hwf as Hwf'. unfold_wf Hwf'.
  destruct (Entry.cls e) eqn:Hcls.
  - (* a Directory object *)
    injection Hs as <- Hs.
    destruct (entry_head_roundtrip e bs rest Hwf Hfit Hnul Hs)
      as (Hlen & Hh & Hp & Hn & Hd).
    rewrite entry_deserialize_eq, Hh. cbn [mbind result_bind].
    rewrite Hn. cbn [mbind result_bind]. rewrite Hp.
    cbn [header_on_wire Header.type Header.size].
    rewrite Hwf'. cbn [class_type].
    rewrite bool_decide_eq_false_2 by (intros E; now apply type_FILE_ne_DIRECTORY).
    rewrite bool_decide_eq_true_2 by reflexivity.
    unfold len. rewrite Hlen. split; [|lia].
    unfold entry_on_wire, Entry.Directory.new. now rewrite Hcls.
  - (* a File object *)
    unfold Entry.File.serialize in Hs.
    destruct (Entry.content e) as [c|] eqn:Hc; [|discriminate].
    injection Hs as <- Hbs.
    set (e1 := Entry.set_header_size e (len c)) in *.
    destruct (Entry.serialize e1) as [base|] eqn:Hbase;
      cbn [mbind result_bind] in Hbs; [|discriminate].
    cbn [e1 Entry.set_header_size Entry.header Header.set_size Header.size] in Hbs.
    assert (Hbs' : bs = base ++ (if 0 <? len c
                   then c ++ zeros (Entry.File.getContentPaddingSize (len c)) else [])).
    { destruct (0 <? len c); inversion Hbs; [reflexivity|now rewrite app_nil_r]. }
    clear Hbs. subst bs. rewrite <- app_assoc.
    set (tl := (if 0 <? len c then _ else _) ++ rest).
    destruct (entry_head_roundtrip e1 base tl) as (Hlen & Hh & Hp & Hn & Hd);
      [assumption..|].
    rewrite entry_deserialize_eq, Hh. cbn [mbind result_bind].
    rewrite Hn. cbn [mbind result_bind]. rewrite Hp, Hd.
    cbn [e1 Entry.set_header_size Entry.header Header.set_size header_on_wire
         Header.type Header.size Entry.padding Entry.name].
    rewrite Hwf'. cbn [class_type].
    rewrite bool_decide_eq_true_2 by reflexivity.
    pose proof (getContentPaddingSize_range (len c)) as Hpad.
    assert (Hcontent : slice_to (len c) tl = c).
    { subst tl. destruct (Z.ltb_spec 0 (len c)) as [Hpos|Hzero].
      - rewrite <- app_assoc. apply slice_to_len_app.
      - assert (c = []) as -> by (destruct c; [reflexivity|unfold len in Hzero; simpl in Hzero; lia]).
        reflexivity. }
    assert (Hsize : len (base ++ (if 0 <? len c
                    then c ++ zeros (Entry.File.getContentPaddingSize (len c)) else []))
                    = 512 + (len c + Entry.File.getContentPaddingSize (len c))).
    { rewrite len_app. unfold len at 1. rewrite Hlen.
      destruct (Z.ltb_spec 0 (len c)) as [Hpos|Hzero].
      - rewrite len_app. unfold len at 2. rewrite length_zeros. lia.
      - pose proof (len_nonneg c). assert (len c = 0) as -> by lia.
        reflexivity. }
    rewrite Hcontent, Hsize. split; [|pose proof (len_nonneg c); lia].
    unfold entry_on_wire, Entry.File.new.
    cbn [Entry.cls Entry.name Entry.header Entry.padding Entry.content
         Entry.set_header_size Header.set_size header_on_wire
         Header.type Header.size Header.created Header.modified
         Header.sectorAddress Header.unk1 Header.unk2 Header.unk3].
    subst e1. cbn [Entry.cls Entry.name Entry.header Entry.padding Entry.content
                   Entry.set_header_size].
    now rewrite Hcls, Hc.
Qed.

(** ** The loop of [save] *)

Lemma save_entry_eta n e : PSU.save_entry n e = (saved_entry n e, (PSU.save_entry n e).2).
Proof. unfold saved_entry. now destruct (PSU.save_entry n e). Qed.

(** A pass of the loop changes nothing of an entry but [header.size]. *)
Lemma call_serialize_fields e :
  let e' := (Entry.call_serialize e).1 in
  Entry.cls e' = Entry.cls e /\ Entry.name e' = Entry.name e /\
  Entry.padding e' = Entry.padding e /\ Entry.content e' = Entry.content e /\
  entry_type e' = entry_type e /\ entry_wf e' = entry_wf e.
Proof.
  unfold Entry.call_serialize, Entry.File.serialize.
  destruct e as [[] nm h p [c|]]; repeat split; reflexivity.
Qed.

Lemma saved_entry_fields n e :
  Entry.cls (saved_entry n e) = Entry.cls e /\
  Entry.name (saved_entry n e) = Entry.name e /\
  Entry.padding (saved_entry n e) = Entry.padding e /\
  Entry.content (saved_entry n e) = Entry.content e /\
  entry_type (saved_entry n e) = entry_type e /\
  entry_wf (saved_entry n e) = entry_wf e.
Proof.
  unfold saved_entry, PSU.save_entry.
  match goal with |- context [Entry.call_serialize ?x] =>
    pose proof (call_serialize_fields x) as H; cbv zeta in H;
    set (e1 := x) in * end.
  assert (He1 : Entry.cls e1 = Entry.cls e /\ Entry.name e1 = Entry.name e /\
                Entry.padding e1 = Entry.padding e /\ Entry.content e1 = Entry.content e /\
                entry_type e1 = entry_type e /\ entry_wf e1 = entry_wf e).
  { subst e1. destruct (bool_decide _); [|repeat split; reflexivity].
    destruct (_ || _); repeat split; reflexivity. }
  destruct H as (-> & -> & -> & -> & -> & ->). exact He1.
Qed.

Lemma save_loop_Ok n todo done data st out :
  PSU.save_loop n done todo data = (st, Ok out) ->
  st = done ++ map (saved_entry n) todo /\
  Forall (fun e => is_Ok (PSU.save_entry n e).2 = true) todo /\
  out = data ++ concat (map (saved_bytes n) todo).
Proof.
  revert done data. induction todo as [|e rest IH]; intros done data H; cbn [PSU.save_loop] in H.
  - injection H as <- <-. cbn. now rewrite !app_nil_r.
  - rewrite save_entry_eta in H. unfold saved_bytes. cbn [map concat].
    destruct (PSU.save_entry n e).2 as [b|x] eqn:E; [|discriminate].
    apply IH in H as (-> & HF & ->). rewrite <- !app_assoc. cbn [app].
    split; [reflexivity|]. split; [|reflexivity].
    constructor; [now rewrite E|assumption].
Qed.

(** When [save] raises, the entries before the failing one have been visited,
    the failing one has gone through its pass, the later ones are untouched. *)
Lemma save_loop_Raise n todo done data st x :
  PSU.save_loop n done todo data = (st, Raise x) ->
  exists pre e post,
    todo = pre ++ e :: post /\
    Forall (fun e => is_Ok (PSU.save_entry n e).2 = true) pre /\
    (PSU.save_entry n e).2 = Raise x /\
    st = done ++ map (saved_entry n) pre ++ saved_entry n e :: post.
Proof.
  revert done data. induction todo as [|e rest IH]; intros done data H; cbn [PSU.save_loop] in H.
  - discriminate.
  - rewrite save_entry_eta in H.
    destruct (PSU.save_entry n e).2 as [b|y] eqn:E.
    + apply IH in H as (pre & e0 & post & -> & HF & He0 & ->).
      exists (e :: pre), e0, post. rewrite <- !app_assoc. cbn [app map].
      repeat split; try assumption. constructor; [now rewrite E|assumption].
    + injection H as <- <-. exists [], e, rest. cbn. auto.
Qed.

(** ** The loop of [__parse] *)

Lemma parse_loop_eq now fuel data offset acc :
  PSU.parse_loop now fuel data offset acc =
    if offset <? len data then
      match fuel with
      | O => None
      | S fuel' =>
          match Entry.deserialize now (drop (Z.to_nat offset) data) with
          | Ok (entry, size) =>
              PSU.parse_loop now fuel' data (offset + size) (acc ++ [entry])
          | Raise e => Some (Raise e)
          end
      end
    else Some (Ok acc).
Proof. destruct fuel; reflexivity. Qed.

(** Parsing a concatenation of encoded entries, each of which decodes to a
    known entry and reports its own length. *)
Lemma parse_loop_concat now (items : list (Entry.t * bytes)) :
  Forall (fun it => forall rest,
            Entry.deserialize now (it.2 ++ rest) = Ok (it.1, len it.2) /\ 512 <= len it.2)
         items ->
  forall fuel pre acc,
    (length items <= fuel)%nat ->
    PSU.parse_loop now fuel (pre ++ concat (map snd items)) (len pre) acc
    = Some (Ok (acc ++ map fst items)).
Proof.
  induction 1 as [|[e bs] items Hit _ IH]; intros fuel pre acc Hfuel.
  - rewrite parse_loop_eq. cbn. rewrite !app_nil_r. now rewrite Z.ltb_irrefl.
  - rewrite parse_loop_eq. cbn [map concat fst snd] in *.
    destruct (Hit []) as [_ Hbig].
    rewrite ltb_true by (rewrite !len_app; pose proof (len_nonneg (concat (map snd items))); lia).
    destruct fuel as [|fuel]; [cbn in Hfuel; lia|].
    unfold len at 1. rewrite Nat2Z.id, drop_app_length.
    destruct (Hit (concat (map snd items))) as [-> _].
    rewrite <- len_app, app_assoc, IH by (cbn in Hfuel; lia).
    now rewrite <- app_assoc.
Qed.

Lemma length_concat_ge (items : list (Entry.t * bytes)) :
  Forall (fun it => 512 <= len it.2) items ->
  (length items <= length (concat (map snd items)))%nat.
Proof.
  induction 1 as [|[e bs] items Hit _ IH]; cbn [map concat length snd] in *; [lia|].
  rewrite length_app. unfold len in Hit. lia.
Qed.

Lemma entry_deserialize_size now data e size :
  Entry.deserialize now data = Ok (e, size) -> 512 <= size.
Proof.
  rewrite entry_deserialize_eq.
  destruct (Header.deserialize _) as [h|] eqn:Hh; cbn [mbind result_bind]; [|discriminate].
  destruct (Entry.getName _) as [nm|]; cbn [mbind result_bind]; [|discriminate].
  pose proof (header_deserialize_size_range _ _ Hh).
  pose proof (getContentPaddingSize_range (Header.size h)).
  repeat destruct (bool_decide _); intros [= <- <-] || discriminate; lia.
Qed.

Lemma parse_loop_fuel now fuel data offset acc :
  0 <= offset -> len data - offset <= Z.of_nat fuel ->
  PSU.parse_loop now fuel data offset acc <> None.
Proof.
  revert offset acc. induction fuel as [|fuel IH]; intros offset acc H0 Hf;
    rewrite parse_loop_eq; destruct (Z.ltb_spec offset (len data)); try discriminate.
  - lia.
  - destruct (Entry.deserialize _ _) as [[e size]|] eqn:E; [|discriminate].
    apply entry_deserialize_size in E. apply IH; lia.
Qed.

(** The loop of [__parse] ends on every buffer. *)
Lemma parse_terminates now data : PSU.parse now data <> None.
Proof. apply parse_loop_fuel; unfold len; lia. Qed.

Lemma save_entry_roundtrip now n e e' bs rest :
  entry_wf e = true ->
  name_fits (Entry.name e) = true ->
  no_trailing_nul (Entry.name e) = true ->
  PSU.save_entry n e = (e', Ok bs) ->
  Entry.deserialize now (bs ++ rest) = Ok (entry_on_wire e', len bs) /\ 512 <= len bs.
Proof.
  intros Hwf Hfit Hnul. unfold PSU.save_entry.
  destruct (bool_decide _); [destruct (_ || _)|];
    apply entry_roundtrip; assumption.
Qed.

Lemma save_parse now (A A1 : PSU.t) data :
  Forall (fun e => entry_wf e = true) A ->
  Forall (fun e => name_fits (Entry.name e) = true) A ->
  Forall (fun e => no_trailing_nul (Entry.name e) = true) A ->
  PSU.save A = (A1, Ok data) ->
  A1 = map (saved_entry (len A)) A /\
  PSU.parse now data = Some (Ok (map entry_on_wire A1)).
Proof.
  intros Hwf Hfit Hnul Hs. unfold PSU.save in Hs.
  apply save_loop_Ok in Hs as (-> & Hok & ->). cbn [app]. split; [reflexivity|].
  set (n := len A) in *.
  set (items := map (fun e => (entry_on_wire (saved_entry n e), saved_bytes n e)) A).
  assert (Hsnd : map snd items = map (saved_bytes n) A).
  { subst items. rewrite map_map. reflexivity. }
  assert (Hfst : map fst items = map entry_on_wire (map (saved_entry n) A)).
  { subst items. rewrite !map_map. reflexivity. }
  assert (Hitems : Forall (fun it => forall rest,
            Entry.deserialize now (it.2 ++ rest) = Ok (it.1, len it.2) /\ 512 <= len it.2)
            items).
  { subst items. apply Forall_map. clear Hsnd Hfst. clearbody n.
    induction A as [|e A IH]; [constructor|].
    inversion Hwf; inversion Hfit; inversion Hnul; inversion Hok; subst.
    constructor; [|now apply IH].
    intros rest. cbn [fst snd]. unfold saved_bytes.
    destruct (PSU.save_entry n e).2 as [b|] eqn:E; [|discriminate].
    eapply save_entry_roundtrip; try eassumption.
    rewrite save_entry_eta, E. reflexivity. }
  unfold PSU.parse. rewrite <- Hsnd, <- Hfst.
  apply (parse_loop_concat now items Hitems _ [] []).
  apply length_concat_ge. eapply Forall_impl; [exact Hitems|].
  intros it H. apply (H []).
Qed.

(** ** When [save] returns *)

Lemma days_in_month_le y m : days_in_month y m <= 31.
Proof.
  unfold days_in_month. destruct (m =? 2); [destruct (is_leap y); lia|].
  destruct (_ || _); lia.
Qed.

Lemma fmt_fits_true c v : 0 <= v < 256 ^ Z.of_nat (fmt_width c) -> fmt_fits c v = true.
Proof. intros H. unfold fmt_fits. apply andb_true_iff. lia. Qed.

(** The fields of a [datetime] fit the codes of the format. *)
Lemma datetime_ok_fits t :
  datetime_ok t = true ->
  fmt_fits fmt_B (second t) = true /\ fmt_fits fmt_B (minute t) = true /\
  fmt_fits fmt_B (hour t) = true /\ fmt_fits fmt_B (day t) = true /\
  fmt_fits fmt_B (month t) = true /\ fmt_fits fmt_H (year t) = true.
Proof.
  unfold datetime_ok, date_fields_ok, time_fields_ok, MINYEAR, MAXYEAR. intros H.
  split_andb. pose proof (days_in_month_le (year t) (month t)).
  repeat split; apply fmt_fits_true; cbn; lia.
Qed.

Lemma header_serialize_succeeds h :
  fmt_fits fmt_H (Header.type h) = true ->
  fmt_fits fmt_H (Header.unk1 h) = true ->
  fmt_fits fmt_I (Header.size h) = true ->
  fmt_fits fmt_H (Header.sectorAddress h) = true ->
  fmt_fits fmt_H (Header.unk2 h) = true ->
  fmt_fits fmt_I (Header.unk3 h) = true ->
  datetime_ok (Header.created h) = true ->
  datetime_ok (Header.modified h) = true ->
  exists bs, Header.serialize h = Ok bs.
Proof.
  intros Hty Hu1 Hsz Hsa Hu2 Hu3 Hc Hm.
  destruct (datetime_ok_fits _ Hc) as (C1 & C2 & C3 & C4 & C5 & C6).
  destruct (datetime_ok_fits _ Hm) as (M1 & M2 & M3 & M4 & M5 & M6).
  unfold Header.serialize, Header.FORMAT.
  cbn [app replicate struct_pack].
  rewrite Hty, Hu1, Hsz, Hsa, Hu2, Hu3, C1, C2, C3, C4, C5, C6, M1, M2, M3, M4, M5, M6.
  change (fmt_fits fmt_B 0) with true. cbn [mbind result_bind]. eauto.
Qed.

(** Under the data model, with fields that fit their codes and names that
    UTF-8 encodes, every pass of the loop of [save] returns, for an archive
    of at most 2^32 entries. *)
Lemma save_entry_succeeds n e :
  1 <= n <= 2 ^ 32 ->
  entry_wf e = true ->
  entry_packable e = true ->
  name_fits (Entry.name e) = true ->
  is_Ok (PSU.save_entry n e).2 = true.
Proof.
  intros Hn Hwf Hp Hfit. unfold_wf Hwf.
  unfold entry_packable in Hp. split_andb.
  unfold name_fits in Hfit.
  destruct (str_encode (Entry.name e)) as [nm|] eqn:Hnm; [|discriminate].
  assert (Hser : forall s, fmt_fits fmt_I s = true ->
            exists bs, Entry.serialize (Entry.set_header_size e s) = Ok bs).
  { intros s Hs. unfold Entry.serialize.
    destruct (header_serialize_succeeds (Header.set_size (Entry.header e) s))
      as [hb Hhb]; try assumption.
    cbn [Entry.set_header_size Entry.header Entry.name Entry.padding].
    rewrite Hhb, Hnm. cbn [mbind result_bind]. eauto. }
  unfold PSU.save_entry, Entry.call_serialize, Entry.File.serialize.
  destruct (Entry.cls e) eqn:Hcls; cbn [class_type] in *.
  - rewrite bool_decide_eq_true_2 by assumption.
    destruct (_ || _); cbn [Entry.set_header_size Entry.cls]; rewrite Hcls; cbn [snd];
      match goal with |- is_Ok (Entry.serialize ?x) = true =>
        change x with (Entry.set_header_size e (Header.size (Entry.header x))) end;
      cbn [Entry.header Header.size Header.set_size];
      edestruct Hser as [bs ->]; try reflexivity; apply fmt_fits_true; cbn; lia.
  - rewrite bool_decide_eq_false_2
      by (intros E; apply type_FILE_ne_DIRECTORY; congruence).
    rewrite Hcls. destruct (Entry.content e) as [c|] eqn:Hc; [|discriminate].
    cbn [snd]. destruct (Hser (len c)) as [bs ->]; [assumption|].
    cbn [mbind result_bind]. now destruct (_ <? _).
Qed.

Lemma save_loop_succeeds n todo :
  Forall (fun e => is_Ok (PSU.save_entry n e).2 = true) todo ->
  forall done data, exists st out, PSU.save_loop n done todo data = (st, Ok out).
Proof.
  induction 1 as [|e rest He _ IH]; intros done data; cbn [PSU.save_loop]; [eauto|].
  rewrite save_entry_eta.
  destruct (PSU.save_entry n e).2 as [b|]; [apply IH|discriminate].
Qed.

Lemma save_succeeds (A : PSU.t) :
  len A <= 2 ^ 32 ->
  Forall (fun e => entry_wf e = true) A ->
  Forall (fun e => entry_packable e = true) A ->
  Forall (fun e => name_fits (Entry.name e) = true) A ->
  exists A1 data, PSU.save A = (A1, Ok data).
Proof.
  intros Hn Hwf Hp Hfit. unfold PSU.save. apply save_loop_succeeds.
  destruct A as [|e0 A0]; [constructor|].
  assert (Hn' : 1 <= len (e0 :: A0) <= 2 ^ 32)
    by (split; [unfold len; cbn [length]; lia|exact Hn]).
  revert Hn'. generalize (len (e0 :: A0)). intros n Hn'.
  rewrite Forall_forall in *. intros e He. apply save_entry_succeeds; auto.
Qed.

(** * The claims *)

(** ** C1: the round trip through [save] and [__parse] *)

(** C1. Let [A] be an archive of the data model (every [File] object has a
    header of type FILE and every [Directory] object one of type DIRECTORY,
    padding blocks have 32 bytes, timestamps are date-times) whose entry names
    fit the 448-byte name field and have no trailing NUL. If [save] on [A]
    writes [data] and leaves the archive as [A1], then parsing [data] returns
    an archive with as many entries as [A], the same names in the same order,
    the same entry types and classes, the same content for every file, and the
    header sizes of [A1], that is, of [A] after the sizes were recomputed. *)
Theorem save_then_parse_round_trip now (A A1 : PSU.t) (data : bytes) :
  Forall (fun e => entry_wf e = true) A ->
  Forall (fun e => name_fits (Entry.name e) = true) A ->
  Forall (fun e => no_trailing_nul (Entry.name e) = true) A ->
  PSU.save A = (A1, Ok data) ->
  exists A2 : PSU.t,
    PSU.parse now data = Some (Ok A2) /\
    length A2 = length A /\
    map Entry.name A2 = map Entry.name A /\
    map entry_type A2 = map entry_type A /\
    map Entry.cls A2 = map Entry.cls A /\
    map file_content A2 = map file_content A /\
    map entry_size A2 = map entry_size A1.
Proof.
  intros Hwf Hfit Hnul Hs.
  destruct (save_parse now A A1 data Hwf Hfit Hnul Hs) as [HA1 Hp].
  exists (map entry_on_wire A1). split; [exact Hp|].
  subst A1. rewrite !length_map, !map_map.
  repeat split; try reflexivity; apply map_ext; intros e;
    destruct (saved_entry_fields (len A) e) as (Hc & Hn & _ & Hct & Hty & _).
  - exact Hn.
  - exact Hty.
  - exact Hc.
  - unfold file_content, entry_on_wire. cbn [Entry.cls Entry.content].
    rewrite Hc, Hct. now destruct (Entry.cls e).
Qed.

Lemma save_then_parse_round_trip_witness :
  PSU.save sample_archive = (sample_saved, Ok sample_bytes) /\
  length sample_archive = 4%nat /\
  len sample_bytes = 3072 /\
  exists A2 : PSU.t,
    PSU.parse sample_now sample_bytes = Some (Ok A2) /\
    length A2 = length sample_archive /\
    map Entry.name A2 = map Entry.name sample_archive /\
    map entry_type A2 = map entry_type sample_archive /\
    map Entry.cls A2 = map Entry.cls sample_archive /\
    map file_content A2 = map file_content sample_archive /\
    map entry_size A2 = map entry_size sample_saved.
Proof.
  assert (Hs : PSU.save sample_archive = (sample_saved, Ok sample_bytes))
    by (vm_compute; reflexivity).
  split; [exact Hs|]. split; [reflexivity|]. split; [vm_compute; reflexivity|].
  apply (save_then_parse_round_trip sample_now sample_archive sample_saved sample_bytes);
    [repeat constructor.. | exact Hs].
Defined.

(** C1 without the data model fails, for an archive the parser itself returns:
    a buffer of 40 bytes parses to a directory whose padding block has 8
    bytes. After [write('f', b'abc')] every name fits the name field and none
    ends with NUL, and [save] writes 2024 bytes, 488 of them for the
    directory. Parsing them takes the first 24 bytes of the name field into
    the padding block and the first 24 bytes of the file's header into the
    name, which is not UTF-8: [__parse] raises [UnicodeDecodeError] and
    returns no archive. *)
Lemma save_then_parse_short_padding_counterexample :
  PSU.parse sample_now short_buffer = Some (Ok [short_padding_directory]) /\
  length (Entry.padding short_padding_directory) = 8%nat /\
  PSU.write sample_now [short_padding_directory] name_f (PyBytes content_abc)
    = Ok (short_padding_archive, Entry.File.new sample_now name_f content_abc None (zeros 32)) /\
  Forall (fun e => name_fits (Entry.name e) = true) short_padding_archive /\
  Forall (fun e => no_trailing_nul (Entry.name e) = true) short_padding_archive /\
  exists (A1 : PSU.t) (data : bytes),
    PSU.save short_padding_archive = (A1, Ok data) /\
    len data = 2024 /\
    PSU.parse sample_now data = Some (Raise UnicodeDecodeError) /\
    ~ exists A2 : PSU.t,
        PSU.parse sample_now data = Some (Ok A2) /\
        length A2 = length short_padding_archive.
Proof.
  split; [vm_compute; reflexivity|]. split; [reflexivity|].
  split; [vm_compute; reflexivity|].
  split; [repeat constructor|]. split; [repeat constructor|].
  eexists _, _. split; [vm_compute; reflexivity|].
  split; [vm_compute; reflexivity|].
  match goal with |- ?P /\ _ => assert (Hp : P) by (vm_compute; reflexivity) end.
  split; [exact Hp|].
  intros (A2 & HA2 & _). rewrite Hp in HA2. discriminate.
Qed.

(** ** C2: the sizes of directories *)

Lemma drop_take_app_head (hb tl : bytes) (a b : nat) :
  (a + b <= length hb)%nat -> take b (drop a (hb ++ tl)) = take b (drop a hb).
Proof.
  intros H. rewrite drop_app_le by lia.
  rewrite take_app_le by (rewrite length_drop; lia). reflexivity.
Qed.

(** The encoded header carries [header.size] at offset 4. *)
Lemma header_serialize_wire_size h hb tl :
  Header.serialize h = Ok hb -> wire_size (hb ++ tl) = Header.size h.
Proof.
  intros H. pose proof (header_serialize_length _ _ H) as Hlen.
  unfold wire_size. rewrite drop_take_app_head by (rewrite Hlen; lia).
  pose proof (unpack_fields_pack _ _ _ [] H) as Hu. rewrite app_nil_r in Hu.
  apply (f_equal (fun t => item t 2)) in Hu.
  cbn [Header.FORMAT app replicate unpack_fields item nth fmt_width] in Hu.
  rewrite drop_drop in Hu. exact Hu.
Qed.

Lemma entry_serialize_wire_size e bs tl :
  Entry.serialize e = Ok bs -> wire_size (bs ++ tl) = entry_size e.
Proof.
  intros H. apply entry_serialize_inv in H as (hb & nm & Hh & _ & ->).
  rewrite <- !app_assoc. now apply header_serialize_wire_size.
Qed.

(** The pass of the loop over a directory entry: the size is assigned, then
    the entry with that size is encoded. *)
Lemma save_entry_directory n e :
  is_directory e ->
  PSU.save_entry n e =
    (Entry.set_header_size e (resolved_size n (Entry.name e)),
     Entry.serialize (Entry.set_header_size e (resolved_size n (Entry.name e)))).
Proof.
  intros [Hcls Hty]. unfold PSU.save_entry, entry_type in *.
  rewrite bool_decide_eq_true_2 by assumption.
  unfold resolved_size, name_dot, name_dotdot.
  destruct (_ || _); unfold Entry.call_serialize; cbn [Entry.cls Entry.set_header_size];
    now rewrite Hcls.
Qed.

Lemma is_directory_saved n e : is_directory (saved_entry n e) <-> is_directory e.
Proof.
  unfold is_directory.
  destruct (saved_entry_fields n e) as (-> & _ & _ & _ & -> & _). reflexivity.
Qed.

Lemma sizes_resolved_saved n (A : PSU.t) : sizes_resolved n (map (saved_entry n) A).
Proof.
  unfold sizes_resolved. apply Forall_map, Forall_forall. intros e _ Hd.
  apply is_directory_saved in Hd.
  destruct (saved_entry_fields n e) as (_ & -> & _).
  unfold saved_entry. now rewrite save_entry_directory.
Qed.

(** C2, as the code has it. [save] visits the entries once, in list order. For
    a directory entry the pass assigns [header.size] (0 when the name is "."
    or "..", the number of entries minus 1 otherwise) and then encodes that
    entry, whatever size the entry held before. So when [save] returns, every
    directory entry holds the resolved size and the bytes written carry it;
    when the encoding of an entry raises, the entries before it have been
    through their pass and the entries after it are left as they were. *)
Theorem save_resolves_directory_sizes (A A1 : PSU.t) (r : result bytes) :
  PSU.save A = (A1, r) ->
  let n := len A in
  (forall e s, is_directory e ->
     PSU.save_entry n (Entry.set_header_size e s) =
       (Entry.set_header_size e (resolved_size n (Entry.name e)),
        Entry.serialize (Entry.set_header_size e (resolved_size n (Entry.name e))))) /\
  match r with
  | Ok data =>
      A1 = map (saved_entry n) A /\
      sizes_resolved n A1 /\
      data = concat (map (saved_bytes n) A) /\
      Forall (fun e => is_directory e ->
                wire_size (saved_bytes n e) = resolved_size n (Entry.name e)) A
  | Raise x =>
      exists pre e post,
        A = pre ++ e :: post /\
        (PSU.save_entry n e).2 = Raise x /\
        A1 = map (saved_entry n) pre ++ saved_entry n e :: post
  end.
Proof.
  intros Hs n. split.
  - intros e s Hd.
    assert (Hd' : is_directory (Entry.set_header_size e s)) by exact Hd.
    rewrite (save_entry_directory n _ Hd'). reflexivity.
  - unfold PSU.save in Hs. fold n in Hs. destruct r as [data|x].
    + apply save_loop_Ok in Hs as (-> & Hok & ->). cbn [app].
      split; [reflexivity|]. split; [apply sizes_resolved_saved|].
      split; [reflexivity|].
      eapply Forall_impl; [exact Hok|]. intros e He Hd.
      unfold saved_bytes. rewrite (save_entry_directory n e Hd).
      cbv beta in He. rewrite (save_entry_directory n e Hd) in He. cbn [snd] in *.
      destruct (Entry.serialize _) as [bs|] eqn:E; [|discriminate].
      rewrite <- (app_nil_r bs). now rewrite (entry_serialize_wire_size _ _ [] E).
    + apply save_loop_Raise in Hs as (pre & e & post & -> & _ & He & ->).
      exists pre, e, post. auto.
Qed.

Lemma save_resolves_directory_sizes_witness :
  PSU.save sample_archive = (sample_saved, Ok sample_bytes) /\
  sizes_resolved (len sample_archive) sample_saved /\
  map entry_size sample_archive = [0; 0; 0; 10] /\
  map entry_size sample_saved = [3; 0; 0; 10].
Proof.
  assert (Hs : PSU.save sample_archive = (sample_saved, Ok sample_bytes))
    by (vm_compute; reflexivity).
  split; [exact Hs|].
  destruct (save_resolves_directory_sizes sample_archive sample_saved (Ok sample_bytes) Hs)
    as [_ (_ & H & _)].
  split; [exact H|]. split; reflexivity.
Defined.

(** C2 as stated fails: a call of [save] that raises while it encodes the
    first entry never assigns the size of the directory that follows, which
    keeps its stale size 7 where the size for two entries is 1. *)
Lemma save_two_pass_counterexample :
  (PSU.save unencodable_archive).2 = Raise UnicodeEncodeError /\
  (PSU.save unencodable_archive).1 !! 1%nat
    = Some (Entry.Directory.new sample_now name_x 7 None (zeros 32)) /\
  is_directory (Entry.Directory.new sample_now name_x 7 None (zeros 32)) /\
  ~ sizes_resolved (len unencodable_archive) (PSU.save unencodable_archive).1.
Proof.
  split; [reflexivity|]. split; [reflexivity|]. split; [split; reflexivity|].
  intros H. unfold sizes_resolved in H.
  rewrite Forall_lookup in H.
  specialize (H 1%nat _ eq_refl (conj eq_refl eq_refl)).
  vm_compute in H. discriminate.
Qed.

(** ** C8: saving twice *)

(** A second pass of the loop over an entry that has been through one repeats
    the first: same entry, same bytes or same exception. *)
Lemma save_entry_idem n e :
  PSU.save_entry n (saved_entry n e) = PSU.save_entry n e.
Proof.
  destruct e as [cls nm [ty sz cr mo sa u1 u2 u3] p ct].
  unfold saved_entry, PSU.save_entry.
  cbn [Entry.header Entry.name Header.type].
  destruct (bool_decide (ty = EntryType.DIRECTORY)) eqn:Hty;
    [destruct (_ || _) eqn:Hnm|];
    destruct cls, ct as [c|];
    cbn [Entry.call_serialize Entry.File.serialize Entry.cls Entry.content
         Entry.set_header_size Entry.header Entry.name Entry.padding
         Header.set_size Header.type Header.size Header.created Header.modified
         Header.sectorAddress Header.unk1 Header.unk2 Header.unk3 fst snd];
    rewrite ?Hty, ?Hnm; reflexivity.
Qed.

Lemma saved_entry_idem n e : saved_entry n (saved_entry n e) = saved_entry n e.
Proof. unfold saved_entry at 1. now rewrite save_entry_idem. Qed.

Lemma save_loop_again n todo :
  forall done data st r,
    PSU.save_loop n done todo data = (st, r) ->
    exists todo',
      st = done ++ todo' /\ length todo' = length todo /\
      forall done', PSU.save_loop n done' todo' data = (done' ++ todo', r).
Proof.
  induction todo as [|e rest IH]; intros done data st r H; cbn [PSU.save_loop] in H.
  - injection H as <- <-. exists []. rewrite app_nil_r. repeat split.
    intros done'. cbn. now rewrite app_nil_r.
  - rewrite save_entry_eta in H.
    destruct (PSU.save_entry n e).2 as [b|x] eqn:E.
    + apply IH in H as (rest' & -> & Hlen & Hagain).
      exists (saved_entry n e :: rest'). rewrite <- app_assoc.
      split; [reflexivity|]. split; [cbn; lia|].
      intros done'. cbn [PSU.save_loop].
      rewrite save_entry_idem, save_entry_eta, E, Hagain, <- app_assoc. reflexivity.
    + injection H as <- <-. exists (saved_entry n e :: rest).
      split; [reflexivity|]. split; [reflexivity|].
      intros done'. cbn [PSU.save_loop].
      rewrite save_entry_idem, save_entry_eta, E. reflexivity.
Qed.

(** C8. A second call of [save], with nothing done to the archive in between,
    returns what the first call returned - the same bytes, or the same
    exception - and leaves the archive as the first call left it. *)
Theorem save_twice (A : PSU.t) :
  PSU.save (PSU.save A).1 = PSU.save A.
Proof.
  destruct (PSU.save A) as [A1 r] eqn:Hs. cbn [fst].
  unfold PSU.save in *.
  apply save_loop_again in Hs as (todo' & -> & Hlen & Hagain). cbn [app] in *.
  unfold len. rewrite Hlen. apply Hagain.
Qed.

(** ** C3 and C7: the encoding of a file *)

(** What [File.serialize] does to an entry that has a content. *)
Lemma file_serialize_inv e c e' bs :
  Entry.content e = Some c ->
  Entry.File.serialize e = (e', Ok bs) ->
  e' = Entry.set_header_size e (len c) /\
  exists head,
    Entry.serialize e' = Ok head /\
    bs = head ++ c ++ zeros (Entry.File.getContentPaddingSize (len c)).
Proof.
  intros Hc. unfold Entry.File.serialize. rewrite Hc. intros [= <- H].
  split; [reflexivity|].
  destruct (Entry.serialize _) as [head|]; cbn [mbind result_bind] in H; [|discriminate].
  exists head. split; [reflexivity|].
  cbn [Entry.set_header_size Entry.header Header.set_size Header.size] in H.
  destruct (Z.ltb_spec 0 (len c)) as [Hpos|Hzero]; injection H as <-; [reflexivity|].
  assert (c = []) as -> by (destruct c; [reflexivity|unfold len in Hzero; simpl in Hzero; lia]).
  cbn. now rewrite app_nil_r.
Qed.

(** C3. The pad after a content of [n] bytes is [(1024 - n % 1024) % 1024]
    bytes long: 0, 1023, 1, 0, 1023 and 0 bytes for the lengths 0, 1, 1023,
    1024, 1025 and 2048, and none for any multiple of 1024. The bytes
    [File.serialize] returns are the header, padding and name, then the
    content, then that many zero bytes. *)
Theorem content_padding_size :
  (forall n, 0 <= n ->
     Entry.File.getContentPaddingSize n = (1024 - n mod 1024) mod 1024) /\
  map Entry.File.getContentPaddingSize [0; 1; 1023; 1024; 1025; 2048]
    = [0; 1023; 1; 0; 1023; 0] /\
  (forall k, 0 <= k -> Entry.File.getContentPaddingSize (1024 * k) = 0) /\
  (forall e e' c bs,
     Entry.content e = Some c ->
     Entry.File.serialize e = (e', Ok bs) ->
     exists head,
       Entry.serialize e' = Ok head /\
       bs = head ++ c ++ zeros ((1024 - len c mod 1024) mod 1024)).
Proof.
  split; [intros n _; apply getContentPaddingSize_formula|].
  split; [reflexivity|].
  split.
  - intros k _. rewrite getContentPaddingSize_formula.
    Z.to_euclidean_division_equations; lia.
  - intros e e' c bs Hc Hs.
    destruct (file_serialize_inv e c e' bs Hc Hs) as (_ & head & Hh & ->).
    exists head. now rewrite getContentPaddingSize_formula.
Qed.

Lemma content_padding_size_witness :
  exists head,
    Entry.serialize (Entry.File.serialize sample_file).1 = Ok head /\
    (Entry.File.serialize sample_file).2
      = Ok (head ++ replicate 10 x00 ++ zeros ((1024 - 10 mod 1024) mod 1024)).
Proof.
  destruct content_padding_size as (_ & _ & _ & Hs).
  destruct (Hs sample_file (Entry.File.serialize sample_file).1 (replicate 10 x00)
              (match (Entry.File.serialize sample_file).2 with
               | Ok b => b
               | Raise _ => []
               end) eq_refl) as (head & Hh & Hb).
  { vm_compute. reflexivity. }
  exists head. split; [exact Hh|].
  change (len (replicate 10 x00)) with 10 in Hb. rewrite <- Hb.
  vm_compute. reflexivity.
Defined.

(** C7. Whatever [header.size] a file entry holds when [File.serialize] is
    called - the content may have been replaced since the entry was built or
    parsed - the method first assigns the length of the content to
    [header.size] and then encodes the header: the entry it leaves has that
    size, the bytes it returns are the encoding of that entry followed by the
    content and its pad, and their size field is the length of the content. *)
Theorem file_serialize_size_is_content_length (e : Entry.t) (c : bytes) :
  Entry.content e = Some c ->
  entry_size (Entry.File.serialize e).1 = len c /\
  (forall s, Entry.File.serialize (Entry.set_header_size e s) = Entry.File.serialize e) /\
  (forall bs, (Entry.File.serialize e).2 = Ok bs ->
     wire_size bs = len c /\
     exists head,
       Entry.serialize (Entry.set_header_size e (len c)) = Ok head /\
       bs = head ++ c ++ zeros (Entry.File.getContentPaddingSize (len c))).
Proof.
  intros Hc. split; [|split].
  - unfold Entry.File.serialize. rewrite Hc. reflexivity.
  - intros s. unfold Entry.File.serialize.
    cbn [Entry.content Entry.set_header_size]. rewrite Hc. reflexivity.
  - intros bs Hbs.
    destruct (file_serialize_inv e c (Entry.File.serialize e).1 bs Hc) as (He' & head & Hh & ->).
    { rewrite <- Hbs. now destruct (Entry.File.serialize e). }
    rewrite He' in Hh. split; [|eauto].
    now rewrite (entry_serialize_wire_size _ _ _ Hh).
Qed.

Lemma file_serialize_size_is_content_length_witness :
  entry_size sample_file = 4096 /\
  entry_size (Entry.File.serialize sample_file).1 = 10 /\
  exists bs, (Entry.File.serialize sample_file).2 = Ok bs /\ wire_size bs = 10.
Proof.
  destruct (file_serialize_size_is_content_length sample_file (replicate 10 x00) eq_refl)
    as (Hsize & _ & Hbytes).
  split; [reflexivity|]. split; [exact Hsize|].
  destruct (Entry.File.serialize sample_file).2 as [bs|] eqn:E; [|vm_compute in E; discriminate].
  exists bs. split; [reflexivity|]. exact (proj1 (Hbytes bs eq_refl)).
Defined.

(** ** C5 and C9: decoding a header *)

(** No exception the code raises is called [MalformedHeader]. *)
Lemma no_MalformedHeader (e : exn) : exn_class e <> "MalformedHeader"%string.
Proof. destruct e; discriminate. Qed.

(** C5, as the code has it. On fewer than 32 bytes [Header.deserialize] never
    returns a header: [struct.unpack] raises [struct.error], which is not a
    [PSUException]. *)
Theorem header_deserialize_short (data : bytes) :
  (length data < 32)%nat ->
  Header.deserialize data = Raise StructError /\
  exn_class StructError = "struct.error"%string /\
  is_PSUException StructError = false.
Proof.
  intros H. split; [|split; reflexivity].
  apply header_deserialize_wrong_size. lia.
Qed.

Lemma header_deserialize_short_witness :
  Header.deserialize (replicate 31 x00) = Raise StructError /\
  exn_class StructError = "struct.error"%string /\
  is_PSUException StructError = false.
Proof.
  apply (header_deserialize_short (replicate 31 x00)). cbn. lia.
Defined.

(** C5 as stated fails: on the empty input the exception is [struct.error],
    and no exception called [MalformedHeader] is raised. *)
Lemma header_deserialize_short_counterexample :
  (length (@nil byte) < 32)%nat /\
  Header.deserialize [] = Raise StructError /\
  ~ (exists e, Header.deserialize [] = Raise e /\ exn_class e = "MalformedHeader"%string).
Proof.
  split; [cbn; lia|]. split; [reflexivity|].
  intros (e & _ & He). exact (no_MalformedHeader e He).
Qed.

Lemma unpack_fields_nonneg fmt data i : 0 <= item (unpack_fields fmt data) i.
Proof.
  unfold item. revert i data. induction fmt as [|c f IH]; intros i data.
  - destruct i; cbn; lia.
  - destruct i as [|i]; cbn [unpack_fields nth]; [|apply IH].
    apply le_value_range.
Qed.

Lemma timestamp_valid_in_range y mo d h mi s :
  0 <= h -> 0 <= mi -> 0 <= s ->
  timestamp_valid (y, mo, d, h, mi, s) = timestamp_in_range (y, mo, d, h, mi, s).
Proof.
  intros Hh Hmi Hs.
  unfold timestamp_valid, timestamp_in_range, claimed_valid, timestamp_year,
    date_fields_ok, time_fields_ok, MINYEAR, MAXYEAR.
  rewrite (proj2 (Z.leb_le 0 h)), (proj2 (Z.leb_le 0 mi)), (proj2 (Z.leb_le 0 s))
    by assumption.
  cbn [andb].
  destruct (1 <=? y), (y <=? 9999), (1 <=? mo), (mo <=? 12), (1 <=? d),
    (d <=? days_in_month y mo), (h <=? 23), (mi <=? 59), (s <=? 59); reflexivity.
Qed.

Lemma wire_timestamps_valid data :
  timestamp_valid (wire_created data) = timestamp_in_range (wire_created data) /\
  timestamp_valid (wire_modified data) = timestamp_in_range (wire_modified data).
Proof.
  unfold wire_created, wire_modified.
  split; apply timestamp_valid_in_range; apply unpack_fields_nonneg.
Qed.

(** C9, as the code has it. On an input of exactly 32 bytes
    [Header.deserialize] returns a header when both timestamps are date-times
    of [datetime] - month 1-12, day valid for the month and year, hour at most
    23, minute and second at most 59, year from 1 to 9999 - and raises
    [ValueError] otherwise. *)
Theorem header_deserialize_needs_valid_timestamps (data : bytes) :
  length data = 32%nat ->
  (timestamp_in_range (wire_created data) && timestamp_in_range (wire_modified data) = true ->
   exists h, Header.deserialize data = Ok h) /\
  (timestamp_in_range (wire_created data) && timestamp_in_range (wire_modified data) = false ->
   Header.deserialize data = Raise ValueError).
Proof.
  intros Hlen. rewrite (header_deserialize_32 data Hlen).
  destruct (wire_timestamps_valid data) as [-> ->].
  split; intros ->; eauto.
Qed.

Lemma header_deserialize_needs_valid_timestamps_witness :
  length leap_day_header = 32%nat /\
  wire_created leap_day_header = (2024, 2, 29, 23, 59, 58) /\
  (exists h, Header.deserialize leap_day_header = Ok h) /\
  wire_created (replicate 32 x00) = (0, 0, 0, 0, 0, 0) /\
  Header.deserialize (replicate 32 x00) = Raise ValueError.
Proof.
  split; [reflexivity|]. split; [reflexivity|]. split.
  - apply (header_deserialize_needs_valid_timestamps leap_day_header); reflexivity.
  - split; [reflexivity|].
    apply (header_deserialize_needs_valid_timestamps (replicate 32 x00)); reflexivity.
Defined.

(** C9 as stated fails: both timestamps of this 32-byte input satisfy the
    stated precondition - 1 January of the year 10000, midnight - and the
    decoding raises, because [datetime] accepts no year above 9999. *)
Lemma header_year_10000_counterexample :
  length year_10000_header = 32%nat /\
  wire_created year_10000_header = (10000, 1, 1, 0, 0, 0) /\
  wire_modified year_10000_header = (10000, 1, 1, 0, 0, 0) /\
  claimed_valid (wire_created year_10000_header) = true /\
  claimed_valid (wire_modified year_10000_header) = true /\
  Header.deserialize year_10000_header = Raise ValueError.
Proof. repeat split; reflexivity. Qed.

(** ** C4 and C10: decoding an entry *)

(** [bytes.decode] raises nothing but [UnicodeDecodeError]. *)
Lemma bytes_decode_raises data e :
  bytes_decode data = Raise e -> e = UnicodeDecodeError.
Proof.
  remember (length data) as n eqn:Hn. revert data Hn e.
  induction n as [n IH] using lt_wf_ind. intros data Hn e.
  assert (Hrec : forall r, (length r < n)%nat ->
            forall (f : str -> result str),
              (forall s, f s <> Raise e \/ e = UnicodeDecodeError) ->
              (s ← bytes_decode r; f s) = Raise e -> e = UnicodeDecodeError).
  { intros r Hr f Hf. destruct (bytes_decode r) as [s|x] eqn:E; cbn [mbind result_bind].
    - intros H. destruct (Hf s) as [Hne| ->]; [contradiction|reflexivity].
    - intros [= <-]. eapply IH; [exact Hr|reflexivity|exact E]. }
  destruct data as [|b0 r0]; [discriminate|]. cbn [bytes_decode length] in *.
  repeat match goal with
  | |- (if ?c then _ else _) = _ -> _ => destruct c
  | |- match ?l with [] => _ | _ :: _ => _ end = _ -> _ =>
      destruct l; cbn [length] in *
  | |- Raise _ = Raise _ -> _ => intros [= <-]; reflexivity
  end;
  (apply Hrec; [lia | intros s; left; discriminate]).
Qed.

Lemma getName_raises data e :
  Entry.getName data = Raise e -> e = UnicodeDecodeError.
Proof.
  unfold Entry.getName.
  destruct (bytes_decode _) as [s|x] eqn:E; cbn [mbind result_bind]; [discriminate|].
  intros [= <-]. exact (bytes_decode_raises _ _ E).
Qed.

(** A header decodes only from 32 bytes, so the buffer it heads is not empty. *)
Lemma header_decoded_nonempty data h :
  Header.deserialize (take 32 data) = Ok h -> 0 < len data.
Proof.
  intros H. destruct data; [|unfold len; cbn; lia].
  rewrite header_deserialize_wrong_size in H by (cbn; lia). discriminate.
Qed.

(** An exception of [Entry.deserialize] leaves the loop of [__parse] as it is. *)
Lemma parse_loop_raise now fuel buf offset acc e :
  0 <= offset < len buf ->
  Entry.deserialize now (drop (Z.to_nat offset) buf) = Raise e ->
  PSU.parse_loop now (S fuel) buf offset acc = Some (Raise e).
Proof.
  intros Ho He. rewrite parse_loop_eq, ltb_true by lia. now rewrite He.
Qed.

(** An entry that reaches the end of the buffer, or goes past it, is the last
    one of the loop. *)
Lemma parse_loop_last now fuel buf offset acc e n :
  0 <= offset < len buf ->
  Entry.deserialize now (drop (Z.to_nat offset) buf) = Ok (e, n) ->
  len buf <= offset + n ->
  PSU.parse_loop now (S fuel) buf offset acc = Some (Ok (acc ++ [e])).
Proof.
  intros Ho He Hn. rewrite parse_loop_eq, ltb_true by lia. rewrite He.
  rewrite parse_loop_eq, ltb_false by lia. reflexivity.
Qed.

Lemma parse_first_entry now data (r : result (Entry.t * Z)) :
  0 < len data ->
  Entry.deserialize now data = r ->
  PSU.parse now data =
    match r with
    | Ok (e, n) => PSU.parse_loop now (Nat.pred (length data)) data (0 + n) ([] ++ [e])
    | Raise x => Some (Raise x)
    end.
Proof.
  intros Hlen <-. unfold PSU.parse. rewrite parse_loop_eq, ltb_true by lia.
  destruct (length data) eqn:E; [unfold len in Hlen; lia|]. reflexivity.
Qed.

(** C4, as the code has it. Let the first 32 bytes of a buffer decode to a
    header whose type is neither DIRECTORY nor FILE. The name field is decoded
    before the type is looked at: when it is UTF-8, [Entry.deserialize] raises
    [UnknownEntryTypeException] with the raw type and the decoded name; when
    it is not, it raises [UnicodeDecodeError]. Either exception ends
    [__parse], at the first entry or at any later one, and no archive is
    returned. *)
Theorem unknown_type_aborts_parse now (data : bytes) (h : Header.t) :
  Header.deserialize (take 32 data) = Ok h ->
  Header.type h <> EntryType.DIRECTORY ->
  Header.type h <> EntryType.FILE ->
  let name := Entry.getName (take 448 (drop 64 data)) in
  let x := unknown_type_outcome (Header.type h) name in
  (forall nm, name = Ok nm -> x = UnknownEntryTypeException (Header.type h) nm) /\
  (forall e, name = Raise e -> x = UnicodeDecodeError) /\
  Entry.deserialize now data = Raise x /\
  PSU.parse now data = Some (Raise x) /\
  (forall fuel buf offset acc,
     0 <= offset < len buf ->
     drop (Z.to_nat offset) buf = data ->
     PSU.parse_loop now (S fuel) buf offset acc = Some (Raise x)).
Proof.
  intros Hh Hd Hf name x.
  assert (Hx : Entry.deserialize now data = Raise x).
  { rewrite entry_deserialize_eq, Hh. cbn [mbind result_bind]. subst x. fold name.
    destruct name as [nm|e]; cbn [mbind result_bind unknown_type_outcome]; [|reflexivity].
    now rewrite !bool_decide_eq_false_2 by assumption. }
  split; [intros nm Hn; subst x; now rewrite Hn|].
  split; [intros e Hn; subst x; rewrite Hn; exact (getName_raises _ _ Hn)|].
  split; [exact Hx|]. split.
  - rewrite (parse_first_entry now data _ (header_decoded_nonempty _ _ Hh) Hx). reflexivity.
  - intros fuel buf offset acc Ho Hb. apply parse_loop_raise; [exact Ho|now rewrite Hb].
Qed.

Lemma unknown_type_aborts_parse_witness :
  Entry.deserialize sample_now unknown_type_entry
    = Raise (UnknownEntryTypeException 1 name_x) /\
  PSU.parse sample_now unknown_type_entry
    = Some (Raise (UnknownEntryTypeException 1 name_x)) /\
  PSU.parse_loop sample_now 1 (sample_bytes ++ unknown_type_entry) 3072 []
    = Some (Raise (UnknownEntryTypeException 1 name_x)).
Proof.
  destruct (Header.deserialize (take 32 unknown_type_entry)) as [h|] eqn:Hh;
    [|vm_compute in Hh; discriminate].
  assert (Hty : Header.type h = 1) by (vm_compute in Hh; now injection Hh as <-).
  destruct (unknown_type_aborts_parse sample_now unknown_type_entry h Hh)
    as (Hx & _ & He & Hp & Hl); [rewrite Hty; discriminate..|].
  rewrite Hty in *. rewrite (Hx name_x) in * by (vm_compute; reflexivity).
  split; [exact He|]. split; [exact Hp|].
  apply Hl; [vm_compute; split; [discriminate|reflexivity] | vm_compute; reflexivity].
Defined.

(** C4 as stated fails: the header of this buffer decodes, its type 0x0001 is
    neither DIRECTORY nor FILE, and the exception is [UnicodeDecodeError],
    raised by the decoding of the name field before the type is looked at. *)
Lemma unknown_type_bad_name_counterexample :
  (exists h, Header.deserialize (take 32 unknown_type_bad_name) = Ok h /\
             Header.type h = 1 /\
             Header.type h <> EntryType.DIRECTORY /\ Header.type h <> EntryType.FILE) /\
  Entry.deserialize sample_now unknown_type_bad_name = Raise UnicodeDecodeError /\
  PSU.parse sample_now unknown_type_bad_name = Some (Raise UnicodeDecodeError) /\
  exn_class UnicodeDecodeError <> "UnknownEntryTypeException"%string.
Proof.
  split.
  - destruct (Header.deserialize (take 32 unknown_type_bad_name)) as [h|] eqn:Hh;
      [|vm_compute in Hh; discriminate].
    exists h. split; [reflexivity|].
    assert (Hty : Header.type h = 1) by (vm_compute in Hh; now injection Hh as <-).
    rewrite Hty. repeat split; discriminate.
  - split; [vm_compute; reflexivity|]. split; [vm_compute; reflexivity|]. discriminate.
Qed.

(** C10, as the code has it. Let the first 32 bytes of a buffer decode to a
    header of type FILE whose size exceeds the number of bytes that follow the
    name field, and let the name field be UTF-8. Then [Entry.deserialize] does
    not raise: it returns a [File] whose content is the bytes that remain,
    fewer than [header.size], together with the count 512 + size + pad
    computed from [header.size], which lies past the end of the buffer; so the
    loop of [__parse] stops after this entry. *)
Theorem truncated_file_is_accepted now (data : bytes) (h : Header.t) (nm : str) :
  Header.deserialize (take 32 data) = Ok h ->
  Header.type h = EntryType.FILE ->
  Entry.getName (take 448 (drop 64 data)) = Ok nm ->
  len (drop 512 data) < Header.size h ->
  let e := Entry.File.new now nm (drop 512 data) (Some h)
             (Entry.getPadding (take 32 (drop 32 data))) in
  let n := 512 + (Header.size h + Entry.File.getContentPaddingSize (Header.size h)) in
  Entry.deserialize now data = Ok (e, n) /\
  Entry.content e = Some (drop 512 data) /\
  len (drop 512 data) < entry_size e /\
  len data < n /\
  PSU.parse now data = Some (Ok [e]) /\
  (forall fuel buf offset acc,
     0 <= offset < len buf ->
     drop (Z.to_nat offset) buf = data ->
     PSU.parse_loop now (S fuel) buf offset acc = Some (Ok (acc ++ [e]))).
Proof.
  intros Hh Hty Hn Hsize e n.
  pose proof (len_nonneg (drop 512 data)) as Hrest.
  pose proof (getContentPaddingSize_range (Header.size h)) as Hpad.
  assert (He : Entry.deserialize now data = Ok (e, n)).
  { rewrite entry_deserialize_eq, Hh. cbn [mbind result_bind]. rewrite Hn.
    cbn [mbind result_bind]. rewrite bool_decide_eq_true_2 by assumption.
    subst e n. do 3 f_equal. unfold slice_to. rewrite (proj2 (Z.leb_le _ _)) by lia.
    apply take_ge. unfold len in Hsize. lia. }
  assert (Hlen : len data < n).
  { subst n. unfold len in *. rewrite length_drop in *. lia. }
  split; [exact He|]. split; [reflexivity|]. split; [exact Hsize|]. split; [exact Hlen|].
  assert (Hlast : forall fuel buf offset acc,
            0 <= offset < len buf -> drop (Z.to_nat offset) buf = data ->
            PSU.parse_loop now (S fuel) buf offset acc = Some (Ok (acc ++ [e]))).
  { intros fuel buf offset acc Ho Hb.
    apply (parse_loop_last now fuel buf offset acc e n Ho); [now rewrite Hb|].
    rewrite <- Hb in Hlen. unfold len in *. rewrite length_drop in Hlen. lia. }
  split; [|exact Hlast].
  pose proof (header_decoded_nonempty _ _ Hh) as Hpos.
  unfold PSU.parse. destruct (length data) eqn:E; [unfold len in Hpos; lia|].
  apply (Hlast _ data 0 []); [lia|reflexivity].
Qed.

Lemma truncated_file_is_accepted_witness :
  exists e,
    Entry.deserialize sample_now truncated_file = Ok (e, 512 + (5 + 1019)) /\
    Entry.content e = Some [] /\
    entry_size e = 5 /\
    len truncated_file = 512 /\
    PSU.parse sample_now truncated_file = Some (Ok [e]).
Proof.
  destruct (Header.deserialize (take 32 truncated_file)) as [h|] eqn:Hh;
    [|vm_compute in Hh; discriminate].
  assert (Hty : Header.type h = EntryType.FILE) by (vm_compute in Hh; now injection Hh as <-).
  assert (Hsz : Header.size h = 5) by (vm_compute in Hh; now injection Hh as <-).
  destruct (truncated_file_is_accepted sample_now truncated_file h name_x Hh Hty)
    as (He & Hc & Hs & _ & Hp & _).
  { vm_compute. reflexivity. }
  { rewrite Hsz. vm_compute. reflexivity. }
  rewrite Hsz in He. change (Entry.File.getContentPaddingSize 5) with 1019 in He.
  eexists. split; [exact He|]. split; [exact Hc|]. split; [exact Hsz|].
  split; [vm_compute; reflexivity|exact Hp].
Defined.

(** C10 as stated fails: the header of this buffer is of type FILE and
    announces 5 bytes where none follows the name field, and the decoding
    raises, because the name field is not UTF-8. *)
Lemma truncated_file_bad_name_counterexample :
  (exists h, Header.deserialize (take 32 truncated_file_bad_name) = Ok h /\
             Header.type h = EntryType.FILE /\
             len (drop 512 truncated_file_bad_name) < Header.size h) /\
  Entry.deserialize sample_now truncated_file_bad_name = Raise UnicodeDecodeError.
Proof.
  split; [|vm_compute; reflexivity].
  destruct (Header.deserialize (take 32 truncated_file_bad_name)) as [h|] eqn:Hh;
    [|vm_compute in Hh; discriminate].
  exists h. split; [reflexivity|].
  assert (Hty : Header.type h = EntryType.FILE) by (vm_compute in Hh; now injection Hh as <-).
  assert (Hsz : Header.size h = 5) by (vm_compute in Hh; now injection Hh as <-).
  rewrite Hty, Hsz. split; [reflexivity|]. vm_compute. reflexivity.
Qed.

(** ** C6: [write] *)

(** [__index(entryName)] without a type: the first position whose entry has
    that name, or [EntryNotFoundException]. *)
Lemma index_found (A : PSU.t) name i e :
  A !! i = Some e ->
  Entry.name e = name ->
  (forall j e', (j < i)%nat -> A !! j = Some e' -> Entry.name e' <> name) ->
  PSU.index A name None = Ok i.
Proof.
  intros Hi Hn Hfirst. unfold PSU.index.
  destruct (list_find _ A) as [[k x]|] eqn:E.
  - apply list_find_Some in E as (Hk & [Hx _] & Hmin).
    destruct (Nat.lt_trichotomy k i) as [Hlt|[->|Hgt]]; [|reflexivity|].
    + now destruct (Hfirst k x Hlt Hk).
    + destruct (Hmin i e Hi Hgt). auto.
  - apply list_find_None in E. rewrite Forall_lookup in E.
    destruct (E i e Hi). auto.
Qed.

Lemma index_first (A : PSU.t) name :
  (exists e, e ∈ A /\ Entry.name e = name) ->
  exists i e,
    A !! i = Some e /\ Entry.name e = name /\
    (forall j e', (j < i)%nat -> A !! j = Some e' -> Entry.name e' <> name) /\
    PSU.index A name None = Ok i.
Proof.
  intros (e0 & Hin & Hn0). unfold PSU.index.
  destruct (list_find _ A) as [[i e]|] eqn:E.
  - apply list_find_Some in E as (Hi & [Hn _] & Hmin).
    exists i, e. repeat split; try assumption.
    intros j e' Hj He' Hn'. apply (Hmin j e' He' Hj). auto.
  - apply list_find_None in E. rewrite Forall_forall in E.
    destruct (E e0 Hin). auto.
Qed.

Lemma index_absent (A : PSU.t) name :
  (forall e, e ∈ A -> Entry.name e <> name) ->
  PSU.index A name None = Raise (EntryNotFoundException name).
Proof.
  intros Habs. unfold PSU.index.
  destruct (list_find _ A) as [[i e]|] eqn:E; [|reflexivity].
  apply list_find_Some in E as (Hi & [Hn _] & _).
  destruct (Habs e); [|assumption]. eapply list_elem_of_lookup_2; eassumption.
Qed.

(** C6. [write(name, data)], with [data] given as bytes or as text that UTF-8
    encodes: when an entry of that name exists, the first such entry gets the
    data as content and its length as [header.size], at its position, and the
    number of entries stays; when none exists, a new [File] entry of type FILE
    with that content is appended at the end and the number of entries grows
    by one. *)
Theorem write_replaces_or_appends now (A : PSU.t) (name : str) (data : pydata) (d : bytes) :
  PSU.as_bytes data = Ok d ->
  ((exists e, e ∈ A /\ Entry.name e = name) ->
   exists i e,
     A !! i = Some e /\ Entry.name e = name /\
     (forall j e', (j < i)%nat -> A !! j = Some e' -> Entry.name e' <> name) /\
     let e' := Entry.set_header_size (Entry.set_content e d) (len d) in
     PSU.write now A name data = Ok (<[i := e']> A, e') /\
     <[i := e']> A !! i = Some e' /\
     Entry.content e' = Some d /\ entry_size e' = len d /\
     length (<[i := e']> A) = length A) /\
  ((forall e, e ∈ A -> Entry.name e <> name) ->
   let e' := Entry.File.new now name d None (zeros 32) in
   PSU.write now A name data = Ok (A ++ [e'], e') /\
   Entry.cls e' = FileClass /\ entry_type e' = EntryType.FILE /\
   Entry.name e' = name /\ Entry.content e' = Some d /\ entry_size e' = len d /\
   length (A ++ [e']) = S (length A)).
Proof.
  intros Hd. split.
  - intros Hex. destruct (index_first A name Hex) as (i & e & Hi & Hn & Hfirst & Hidx).
    exists i, e. split; [exact Hi|]. split; [exact Hn|]. split; [exact Hfirst|].
    intros e'. split; [|split; [|split; [|split]]].
    + unfold PSU.write, PSU.has, PSU.get, PSU.entries_item.
      rewrite Hd, Hidx. cbn [mbind result_bind]. rewrite Hi. reflexivity.
    + apply list_lookup_insert_eq. eapply lookup_lt_Some; eassumption.
    + reflexivity.
    + reflexivity.
    + apply length_insert.
  - intros Habs e'. split; [|repeat split].
    + unfold PSU.write, PSU.has, PSU.get.
      rewrite Hd, (index_absent A name Habs). reflexivity.
    + rewrite length_app. cbn. lia.
Qed.

Lemma write_replaces_or_appends_witness :
  length sample_dirs = 3%nat /\
  (exists A e, PSU.write sample_now sample_dirs name_icon_sys (PyBytes (replicate 10 x00))
                 = Ok (A, e) /\ length A = 4%nat /\ A !! 3%nat = Some e) /\
  (exists A e, PSU.write sample_now sample_archive name_icon_sys (PyStr name_x)
                 = Ok (A, e) /\ length A = 4%nat /\ A !! 3%nat = Some e /\
               Entry.content e = Some [x78] /\ entry_size e = 1).
Proof.
  split; [reflexivity|]. split.
  - destruct (write_replaces_or_appends sample_now sample_dirs name_icon_sys
                (PyBytes (replicate 10 x00)) (replicate 10 x00) eq_refl) as [_ Happ].
    destruct Happ as (Hw & _).
    { intros e He. vm_compute in He.
      repeat (apply elem_of_cons in He as [->|He]; [discriminate|]).
      now apply elem_of_nil in He. }
    eexists _, _. split; [exact Hw|]. split; reflexivity.
  - destruct (write_replaces_or_appends sample_now sample_archive name_icon_sys
                (PyStr name_x) [x78] eq_refl) as [Hrep _].
    destruct Hrep as (i & e & Hi & Hn & Hfirst & Hw & Hl & Hc & Hs & Hlen).
    { exists (Entry.File.new sample_now name_icon_sys (replicate 10 x00) None (zeros 32)).
      split; [|reflexivity]. apply (list_elem_of_lookup_2 _ 3%nat). reflexivity. }
    assert (i = 3%nat) as ->.
    { destruct i as [|[|[|[|i]]]]; vm_compute in Hi; try discriminate; [..|reflexivity];
        injection Hi as <-; vm_compute in Hn; discriminate. }
    eexists _, _. split; [exact Hw|].
    split; [exact Hlen|]. split; [exact Hl|]. split; [exact Hc|exact Hs].
Defined.

(** * Further properties of the code *)

(** ** The header codec *)

Lemma le_bytes_le_value (bs : bytes) : le_bytes (length bs) (le_value bs) = bs.
Proof.
  induction bs as [|b r IH]; [reflexivity|].
  cbn [length le_bytes le_value].
  pose proof (byte_to_Z_range b) as Hb.
  replace ((byte_to_Z b + 256 * le_value r) mod 256) with (byte_to_Z b)
    by (Z.to_euclidean_division_equations; lia).
  replace ((byte_to_Z b + 256 * le_value r) / 256) with (le_value r)
    by (Z.to_euclidean_division_equations; lia).
  now rewrite byte_of_to_Z, IH.
Qed.

(** Packing the values unpacked from a buffer of the right size gives the
    buffer back. *)
Lemma struct_pack_unpack_fields fmt (d : bytes) :
  length d = calcsize fmt -> struct_pack fmt (unpack_fields fmt d) = Ok d.
Proof.
  revert d. induction fmt as [|c f IH]; intros d Hlen; cbn [calcsize] in Hlen.
  - destruct d; [reflexivity|discriminate].
  - cbn [unpack_fields struct_pack].
    assert (Ht : length (take (fmt_width c) d) = fmt_width c)
      by (rewrite length_take; lia).
    rewrite fmt_fits_true.
    2:{ pose proof (le_value_range (take (fmt_width c) d)) as H.
        unfold len in H. now rewrite Ht in H. }
    rewrite IH by (rewrite length_drop; lia). cbn [mbind result_bind].
    rewrite <- Ht at 1. rewrite le_bytes_le_value, take_drop. reflexivity.
Qed.

Lemma struct_pack_raises fmt vals e :
  struct_pack fmt vals = Raise e -> e = StructError.
Proof.
  revert vals. induction fmt as [|c f IH]; intros [|v vs]; cbn [struct_pack];
    try (intros [= <-]; reflexivity); try discriminate.
  destruct (fmt_fits c v); [|intros [= <-]; reflexivity].
  destruct (struct_pack f vs) eqn:E; cbn [mbind result_bind]; [discriminate|].
  intros [= <-]. eapply IH, E.
Qed.

Lemma struct_pack_fits fmt vals bs :
  struct_pack fmt vals = Ok bs -> Forall2 (fun c v => fmt_fits c v = true) fmt vals.
Proof.
  revert vals bs. induction fmt as [|c f IH]; intros [|v vs] bs; cbn [struct_pack];
    try discriminate; [constructor|].
  destruct (fmt_fits c v) eqn:Hc; [|discriminate].
  destruct (struct_pack f vs) eqn:E; cbn [mbind result_bind]; [|discriminate].
  intros _. constructor; [exact Hc|eapply IH, E].
Qed.

(** X1. A header written by [Header.serialize] and read back by
    [Header.deserialize] keeps its type, its size, the sector address and the
    three unknown fields; the two timestamps come back to the second, without
    their microseconds. The encoding has 32 bytes. *)
Theorem header_encode_then_decode (h : Header.t) (bs : bytes) :
  datetime_ok (Header.created h) = true ->
  datetime_ok (Header.modified h) = true ->
  Header.serialize h = Ok bs ->
  length bs = 32%nat /\
  exists h',
    Header.deserialize bs = Ok h' /\
    Header.type h' = Header.type h /\ Header.size h' = Header.size h /\
    Header.sectorAddress h' = Header.sectorAddress h /\
    Header.unk1 h' = Header.unk1 h /\ Header.unk2 h' = Header.unk2 h /\
    Header.unk3 h' = Header.unk3 h /\
    Header.created h' = whole_seconds (Header.created h) /\
    Header.modified h' = whole_seconds (Header.modified h).
Proof.
  intros Hc Hm Hs. split; [exact (header_serialize_length _ _ Hs)|].
  exists (header_on_wire h). split; [now apply header_deserialize_serialize|].
  repeat split.
Qed.

Lemma header_encode_then_decode_witness :
  exists bs h',
    Header.serialize (Entry.header sample_file) = Ok bs /\
    Header.deserialize bs = Ok h' /\
    Header.size h' = 4096 /\
    microsecond (Header.created (Entry.header sample_file)) = 123456 /\
    microsecond (Header.created h') = 0.
Proof.
  destruct (Header.serialize (Entry.header sample_file)) as [bs|] eqn:E;
    [|vm_compute in E; discriminate].
  destruct (header_encode_then_decode (Entry.header sample_file) bs eq_refl eq_refl E)
    as (_ & h' & Hd & _ & Hsz & _ & _ & _ & _ & Hcr & _).
  exists bs, h'. split; [reflexivity|]. split; [exact Hd|].
  split; [rewrite Hsz; reflexivity|]. split; [reflexivity|]. now rewrite Hcr.
Defined.

Ltac explode_32 data Hlen :=
  do 32 (destruct data as [|? data]; [discriminate Hlen|]);
  destruct data; [|discriminate Hlen].

(** X2. A header read by [Header.deserialize] and written again by
    [Header.serialize] gives the 32 bytes it was read from, except that the
    first byte of each timestamp record (offsets 8 and 24) is written as
    zero. *)
Theorem header_decode_then_encode (data : bytes) (h : Header.t) :
  Header.deserialize data = Ok h ->
  Header.serialize h = Ok (<[8%nat := x00]> (<[24%nat := x00]> data)).
Proof.
  intros H.
  assert (Hlen : length data = 32%nat).
  { destruct (decide (length data = 32%nat)) as [|Hne]; [assumption|].
    rewrite (header_deserialize_wrong_size _ Hne) in H. discriminate. }
  rewrite (header_deserialize_32 _ Hlen) in H.
  destruct (_ && _); [|discriminate]. injection H as <-.
  explode_32 data Hlen.
  match goal with |- _ = Ok ?d => exact (struct_pack_unpack_fields Header.FORMAT d eq_refl) end.
Qed.

Lemma header_decode_then_encode_witness :
  exists h,
    Header.deserialize (<[8%nat := xff]> leap_day_header) = Ok h /\
    Header.serialize h = Ok leap_day_header.
Proof.
  destruct (Header.deserialize (<[8%nat := xff]> leap_day_header)) as [h|] eqn:E;
    [|vm_compute in E; discriminate].
  exists h. split; [reflexivity|].
  rewrite (header_decode_then_encode _ h E). vm_compute. reflexivity.
Defined.

(** X3. With timestamps that are date-times, [Header.serialize] returns 32
    bytes when [type], [unk1], [sectorAddress] and [unk2] fit 16 bits and
    [size] and [unk3] fit 32 bits, all unsigned, and raises [struct.error]
    otherwise. *)
Theorem header_serialize_returns_iff_fields_fit (h : Header.t) :
  datetime_ok (Header.created h) = true ->
  datetime_ok (Header.modified h) = true ->
  (header_fits h = true ->
   exists bs, Header.serialize h = Ok bs /\ length bs = 32%nat) /\
  (header_fits h = false -> Header.serialize h = Raise StructError).
Proof.
  intros Hc Hm. split.
  - unfold header_fits. intros H. split_andb.
    destruct (header_serialize_succeeds h) as [bs Hbs]; try assumption.
    exists bs. split; [exact Hbs|exact (header_serialize_length _ _ Hbs)].
  - intros Hfit. destruct (Header.serialize h) as [bs|e] eqn:E.
    + exfalso. unfold Header.serialize in E. apply struct_pack_fits in E.
      unfold Header.FORMAT in E. cbn [app replicate] in E.
      repeat match goal with H : Forall2 _ (_ :: _) (_ :: _) |- _ =>
        apply Forall2_cons in H as [? H] end.
      unfold header_fits in Hfit.
      repeat match goal with H : fmt_fits _ _ = true |- _ => rewrite H in Hfit; clear H end.
      discriminate.
    + unfold Header.serialize in E. now rewrite (struct_pack_raises _ _ _ E).
Qed.

Lemma header_serialize_returns_iff_fields_fit_witness :
  (exists bs, Header.serialize (Entry.header sample_file) = Ok bs /\ length bs = 32%nat) /\
  Header.size oversized_header = 4294967296 /\
  Header.serialize oversized_header = Raise StructError.
Proof.
  split.
  - apply (header_serialize_returns_iff_fields_fit (Entry.header sample_file));
      reflexivity.
  - split; [reflexivity|].
    apply (header_serialize_returns_iff_fields_fit oversized_header); reflexivity.
Defined.

(** ** Padding and names *)

(** X4. [getContentPaddingSize(n)] is the least number of bytes, from 0 to
    1023, that brings a content of [n] bytes to a multiple of 1024. *)
Theorem content_padding_aligns (n : Z) :
  0 <= Entry.File.getContentPaddingSize n < 1024 /\
  (n + Entry.File.getContentPaddingSize n) mod 1024 = 0 /\
  (forall p, 0 <= p -> (n + p) mod 1024 = 0 -> Entry.File.getContentPaddingSize n <= p).
Proof.
  split; [apply getContentPaddingSize_range|].
  unfold Entry.File.getContentPaddingSize, Entry.File.PAGE_SIZE.
  destruct (Z.eqb_spec (1024 - n mod 1024) 1024) as [E|E]; split.
  - rewrite Z.add_0_r. lia.
  - intros p Hp _. exact Hp.
  - Z.to_euclidean_division_equations; lia.
  - intros p Hp Hmod.
    pose proof (Z.div_mod n 1024 ltac:(lia)) as Hn.
    pose proof (Z.mod_pos_bound n 1024 ltac:(lia)) as Hr.
    pose proof (Z.div_mod (n + p) 1024 ltac:(lia)) as Hnp.
    rewrite Hmod in Hnp.
    assert (n / 1024 < (n + p) / 1024) by lia. lia.
Qed.

Lemma last_rstrip_nul s : last (rstrip_nul s) <> Some 0.
Proof.
  induction s as [|c r IH]; [discriminate|]. cbn [rstrip_nul].
  destruct (rstrip_nul r) as [|c' r'] eqn:E.
  - destruct (Z.eqb_spec c 0); [discriminate|]. cbn. congruence.
  - change (last (c :: c' :: r')) with (last (c' :: r')). exact IH.
Qed.

(** X5. A name that UTF-8 encodes to at most 448 bytes, written into the name
    field by [Entry.serialize] (zero-padded to 448 bytes) and read back by
    [__getName], comes back without its trailing NUL characters: unchanged
    exactly when it does not end with NUL. *)
Theorem name_field_round_trip (s : str) (bs : bytes) :
  str_encode s = Ok bs ->
  (length bs <= 448)%nat ->
  length (ljust bs 448 x00) = 448%nat /\
  Entry.getName (ljust bs 448 x00) = Ok (rstrip_nul s) /\
  (rstrip_nul s = s <-> last s <> Some 0).
Proof.
  intros He Hlen. split; [now apply length_ljust|]. split.
  - unfold Entry.getName, Entry.NAME_SIZE.
    rewrite take_ge by (rewrite length_ljust; lia).
    unfold ljust. rewrite (bytes_decode_encode _ _ _ He), bytes_decode_zeros.
    cbn [mbind result_bind]. now rewrite rstrip_nul_app_zeros.
  - split; [|apply rstrip_nul_id].
    intros <-. apply last_rstrip_nul.
Qed.

Lemma name_field_round_trip_witness :
  (exists bs, str_encode name_save_nul = Ok bs /\
     Entry.getName (ljust bs 448 x00) = Ok [115; 97; 118; 101]) /\
  (exists bs, str_encode name_icon_sys = Ok bs /\
     Entry.getName (ljust bs 448 x00) = Ok name_icon_sys).
Proof.
  split.
  - destruct (str_encode name_save_nul) as [bs|] eqn:E; [|vm_compute in E; discriminate].
    exists bs. split; [reflexivity|].
    destruct (name_field_round_trip name_save_nul bs E) as (_ & -> & _); [|reflexivity].
    vm_compute in E. injection E as <-. cbn. lia.
  - destruct (str_encode name_icon_sys) as [bs|] eqn:E; [|vm_compute in E; discriminate].
    exists bs. split; [reflexivity|].
    destruct (name_field_round_trip name_icon_sys bs E) as (_ & -> & _); [|reflexivity].
    vm_compute in E. injection E as <-. cbn. lia.
Defined.

(** X6. [Entry.serialize] neither rejects nor cuts a name: when the header
    packs and the name encodes to [nm], the result is the 32 header bytes, the
    padding block, and [nm] zero-padded to 448 bytes - or [nm] in full when it
    is longer, which makes the record longer than its fixed layout. *)
Theorem entry_serialize_length (e : Entry.t) (hb nm : bytes) :
  Header.serialize (Entry.header e) = Ok hb ->
  str_encode (Entry.name e) = Ok nm ->
  exists bs,
    Entry.serialize e = Ok bs /\
    length bs = (32 + length (Entry.padding e) + Nat.max 448 (length nm))%nat /\
    take (length nm) (drop (32 + length (Entry.padding e)) bs) = nm.
Proof.
  intros Hh Hn. unfold Entry.serialize, Entry.NAME_SIZE.
  rewrite Hh, Hn. cbn [mbind result_bind].
  eexists. split; [reflexivity|].
  pose proof (header_serialize_length _ _ Hh) as Lh.
  split.
  - unfold ljust. rewrite !length_app, length_replicate. lia.
  - rewrite app_assoc, drop_app_length' by (rewrite length_app; lia).
    unfold ljust. apply take_app_length.
Qed.

Lemma entry_serialize_length_witness :
  exists bs,
    Entry.serialize long_name_entry = Ok bs /\
    length bs = 514%nat.
Proof.
  destruct (Header.serialize (Entry.header long_name_entry)) as [hb|] eqn:Eh;
    [|vm_compute in Eh; discriminate].
  destruct (str_encode (Entry.name long_name_entry)) as [nm|] eqn:En;
    [|vm_compute in En; discriminate].
  destruct (entry_serialize_length long_name_entry hb nm Eh En) as (bs & Hs & Hl & _).
  exists bs. split; [exact Hs|]. rewrite Hl.
  vm_compute in En. injection En as <-. reflexivity.
Defined.

(** ** Lookups *)

Lemma index_Ok (A : PSU.t) name ty i :
  PSU.index A name ty = Ok i <-> exists e, first_match A name ty i e.
Proof.
  unfold PSU.index, first_match.
  destruct (list_find _ A) as [[k x]|] eqn:E.
  - apply list_find_Some in E as (Hk & Hx & Hmin). split.
    + intros [= <-]. exists x. split; [exact Hk|]. split; [exact Hx|].
      intros j e' Hj He'. exact (Hmin j e' He' Hj).
    + intros (e & Hi & He & Hfirst). f_equal.
      destruct (Nat.lt_trichotomy k i) as [Hlt|[->|Hgt]]; [|reflexivity|].
      * destruct (Hfirst k x Hlt Hk Hx).
      * destruct (Hmin i e Hi Hgt He).
  - apply list_find_None in E. rewrite Forall_lookup in E. split; [discriminate|].
    intros (e & Hi & He & _). destruct (E i e Hi He).
Qed.

Lemma index_Raise (A : PSU.t) name ty x :
  PSU.index A name ty = Raise x <->
  x = EntryNotFoundException name /\ forall e, e ∈ A -> ~ entry_matches name ty e.
Proof.
  unfold PSU.index.
  destruct (list_find _ A) as [[k e]|] eqn:E.
  - apply list_find_Some in E as (Hk & He & _). split; [discriminate|].
    intros [_ Hno]. destruct (Hno e (list_elem_of_lookup_2 _ _ _ Hk) He).
  - apply list_find_None in E. rewrite Forall_forall in E. split.
    + intros [= <-]. split; [reflexivity|exact E].
    + intros [-> _]. reflexivity.
Qed.

Lemma entries_item_index (A : PSU.t) name ty i e :
  first_match A name ty i e -> PSU.entries_item A i = Ok e.
Proof. intros (Hi & _). unfold PSU.entries_item. now rewrite Hi. Qed.

Lemma first_match_unique (A : PSU.t) name ty i e i' e' :
  first_match A name ty i e -> first_match A name ty i' e' -> i = i' /\ e = e'.
Proof.
  intros (Hi & He & Hf) (Hi' & He' & Hf').
  destruct (Nat.lt_trichotomy i i') as [Hlt|[->|Hgt]].
  - destruct (Hf' i e Hlt Hi He).
  - split; [reflexivity|congruence].
  - destruct (Hf i' e' Hgt Hi' He').
Qed.

Lemma get_Ok (A : PSU.t) name ty e :
  PSU.get A name ty = Ok e <-> exists i, first_match A name ty i e.
Proof.
  unfold PSU.get.
  destruct (PSU.index A name ty) as [i|x] eqn:E; cbn [mbind result_bind].
  - apply index_Ok in E as [e0 He0]. rewrite (entries_item_index _ _ _ _ _ He0). split.
    + intros [= <-]. eauto.
    + intros [i' He]. f_equal. symmetry.
      exact (proj2 (first_match_unique _ _ _ _ _ _ _ He He0)).
  - apply index_Raise in E as [-> Hno]. split; [discriminate|].
    intros (i & Hi & He & _). destruct (Hno e (list_elem_of_lookup_2 _ _ _ Hi) He).
Qed.

Lemma get_Raise (A : PSU.t) name ty x :
  PSU.get A name ty = Raise x <->
  x = EntryNotFoundException name /\ forall e, e ∈ A -> ~ entry_matches name ty e.
Proof.
  unfold PSU.get.
  destruct (PSU.index A name ty) as [i|y] eqn:E; cbn [mbind result_bind].
  - apply index_Ok in E as [e0 He0]. rewrite (entries_item_index _ _ _ _ _ He0).
    split; [discriminate|]. intros [_ Hno]. destruct He0 as (Hi & He & _).
    destruct (Hno e0 (list_elem_of_lookup_2 _ _ _ Hi) He).
  - split.
    + intros [= <-]. now apply index_Raise.
    + intros Hx. f_equal. apply index_Raise in E as [-> _]. now destruct Hx as [-> _].
Qed.

Lemma has_true (A : PSU.t) name :
  (exists e, e ∈ A /\ Entry.name e = name) -> PSU.has A name = Ok true.
Proof.
  intros (e & Hin & Hn). unfold PSU.has.
  destruct (PSU.get A name None) as [e0|x] eqn:E; [reflexivity|].
  apply get_Raise in E as [_ Hno]. destruct (Hno e Hin). split; [exact Hn|now left].
Qed.

Lemma has_false (A : PSU.t) name :
  (forall e, e ∈ A -> Entry.name e <> name) -> PSU.has A name = Ok false.
Proof.
  intros Hno. unfold PSU.has.
  destruct (PSU.get A name None) as [e0|x] eqn:E.
  - apply get_Ok in E as (i & Hi & [Hn _] & _).
    destruct (Hno e0 (list_elem_of_lookup_2 _ _ _ Hi) Hn).
  - apply get_Raise in E as [-> _]. reflexivity.
Qed.

(** X7. [get(entryName, type)] returns the first entry, in list order, that
    has the name and, when a type is given, a header of that type; when no
    entry matches it raises [EntryNotFoundException] for the name, and it
    raises nothing else. *)
Theorem get_returns_first_match (A : PSU.t) (name : str) (ty : option Z) :
  (forall e, PSU.get A name ty = Ok e <-> exists i, first_match A name ty i e) /\
  (forall x, PSU.get A name ty = Raise x <->
     x = EntryNotFoundException name /\
     forall e, e ∈ A -> ~ entry_matches name ty e).
Proof.
  split; [intros e; apply get_Ok|intros x; apply get_Raise].
Qed.

(** X8. [has(entryName)] never raises: it returns [True] when some entry has
    the name, of whatever type, and [False] when none has. *)
Theorem has_iff_some_entry_named (A : PSU.t) (name : str) :
  exists b, PSU.has A name = Ok b /\
            (b = true <-> exists e, e ∈ A /\ Entry.name e = name).
Proof.
  destruct (PSU.has A name) as [b|x] eqn:E.
  - exists b. split; [reflexivity|]. split.
    + intros ->. unfold PSU.has in E.
      destruct (PSU.get A name None) as [e|x] eqn:G.
      * apply get_Ok in G as (i & Hi & [Hn _] & _).
        exists e. split; [eapply list_elem_of_lookup_2, Hi|exact Hn].
      * apply get_Raise in G as [-> _]. discriminate.
    + intros Hex. rewrite (has_true _ _ Hex) in E. now injection E.
  - unfold PSU.has in E. destruct (PSU.get A name None) as [e|y] eqn:G; [discriminate|].
    apply get_Raise in G as [-> _]. discriminate.
Qed.

Lemma read_first (A : PSU.t) name i e c :
  first_match A name (Some EntryType.FILE) i e ->
  Entry.content e = Some c ->
  PSU.read A name = Ok c.
Proof.
  intros Hm Hc. unfold PSU.read.
  rewrite (proj2 (get_Ok A name (Some EntryType.FILE) e) (ex_intro _ i Hm)).
  cbn [mbind result_bind]. now rewrite Hc.
Qed.

(** X9. [read(entryName)] returns the content of the first entry that has the
    name and a header of type FILE, passing over directories of that name that
    stand before it; when no entry has both, it raises
    [EntryNotFoundException]. *)
Theorem read_returns_first_file (A : PSU.t) (name : str) :
  (forall i e c,
     first_match A name (Some EntryType.FILE) i e ->
     Entry.content e = Some c ->
     PSU.read A name = Ok c) /\
  ((forall e, e ∈ A -> Entry.name e = name -> entry_type e <> EntryType.FILE) ->
   PSU.read A name = Raise (EntryNotFoundException name)).
Proof.
  unfold PSU.read. split.
  - intros i e c. apply read_first.
  - intros Hno.
    rewrite (proj2 (get_Raise A name (Some EntryType.FILE) (EntryNotFoundException name)));
      [reflexivity|].
    split; [reflexivity|]. intros e Hin [Hn [Hty|Hty]]; [discriminate|].
    apply (Hno e Hin Hn). congruence.
Qed.

Lemma read_returns_first_file_witness :
  PSU.get shadowed_archive name_x None
    = Ok (Entry.Directory.new sample_now name_x 0 None (zeros 32)) /\
  PSU.read shadowed_archive name_x = Ok [x01] /\
  PSU.read sample_dirs name_dot = Raise (EntryNotFoundException name_dot).
Proof.
  split; [reflexivity|]. split.
  - destruct (read_returns_first_file shadowed_archive name_x) as [H _].
    apply (H 1%nat (Entry.File.new sample_now name_x [x01] None (zeros 32))); [|reflexivity].
    split; [reflexivity|]. split; [split; [reflexivity|now right]|].
    intros [|j] e' Hj He'; [|lia]. injection He' as <-. intros [_ [H0|H0]]; discriminate.
  - destruct (read_returns_first_file sample_dirs name_dot) as [_ H].
    apply H. intros e He _. vm_compute in He.
    repeat (apply elem_of_cons in He as [->|He]; [discriminate|]).
    now apply elem_of_nil in He.
Defined.

(** X10. [delete(entryName)] removes the first entry that has the name, of
    whatever type, and keeps the others in their order, so the archive has one
    entry less; when no entry has the name it raises
    [EntryNotFoundException]. *)
Theorem delete_removes_first (A : PSU.t) (name : str) :
  (forall i e,
     first_match A name None i e ->
     PSU.delete A name = Ok (take i A ++ drop (S i) A) /\
     A = take i A ++ e :: drop (S i) A /\
     S (length (take i A ++ drop (S i) A)) = length A) /\
  ((forall e, e ∈ A -> Entry.name e <> name) ->
   PSU.delete A name = Raise (EntryNotFoundException name)).
Proof.
  unfold PSU.delete. split.
  - intros i e Hm.
    rewrite (proj2 (index_Ok A name None i) (ex_intro _ e Hm)). cbn [mbind result_bind].
    destruct Hm as (Hi & _). rewrite delete_take_drop.
    split; [reflexivity|]. split; [symmetry; now apply take_drop_middle|].
    pose proof (lookup_lt_Some _ _ _ Hi).
    rewrite length_app, length_take, length_drop. lia.
  - intros Hno.
    rewrite (proj2 (index_Raise A name None (EntryNotFoundException name)));
      [reflexivity|].
    split; [reflexivity|]. intros e Hin [Hn _]. exact (Hno e Hin Hn).
Qed.

Lemma delete_removes_first_witness :
  PSU.delete shadowed_archive name_x
    = Ok [Entry.File.new sample_now name_x [x01] None (zeros 32)] /\
  PSU.delete sample_dirs name_x = Raise (EntryNotFoundException name_x).
Proof.
  split.
  - destruct (delete_removes_first shadowed_archive name_x) as [H _].
    destruct (H 0%nat (Entry.Directory.new sample_now name_x 0 None (zeros 32)))
      as (Hd & _); [|exact Hd].
    split; [reflexivity|]. split; [split; [reflexivity|now left]|]. intros j e' Hj. lia.
  - destruct (delete_removes_first sample_dirs name_x) as [_ H].
    apply H. intros e He. vm_compute in He.
    repeat (apply elem_of_cons in He as [->|He]; [discriminate|]).
    now apply elem_of_nil in He.
Defined.

Lemma first_match_app_l (A B : PSU.t) name ty i e :
  first_match A name ty i e -> first_match (A ++ B) name ty i e.
Proof.
  intros (Hi & He & Hf). pose proof (lookup_lt_Some _ _ _ Hi) as Hlt.
  split; [rewrite lookup_app_l; assumption|]. split; [exact He|].
  intros j e' Hj He'. rewrite lookup_app_l in He' by lia. exact (Hf j e' Hj He').
Qed.

Lemma first_match_snoc (A : PSU.t) name ty e :
  (forall e0, e0 ∈ A -> ~ entry_matches name ty e0) ->
  entry_matches name ty e ->
  first_match (A ++ [e]) name ty (length A) e.
Proof.
  intros Hno He. split; [|split; [exact He|]].
  - rewrite lookup_app_r by lia. now rewrite Nat.sub_diag.
  - intros j e' Hj He'. rewrite lookup_app_l in He' by lia.
    exact (Hno e' (list_elem_of_lookup_2 _ _ _ He')).
Qed.

(** X11. [add(entry)] appends without looking at the names already there:
    every lookup that found an entry before finds the same entry afterwards,
    and the added entry is found under its name only when no earlier entry
    matches. *)
Theorem add_keeps_earlier_entries_first (A : PSU.t) (e : Entry.t) :
  length (PSU.add A e) = S (length A) /\
  (forall name ty e0, PSU.get A name ty = Ok e0 -> PSU.get (PSU.add A e) name ty = Ok e0) /\
  (forall ty,
     (forall e0, e0 ∈ A -> ~ entry_matches (Entry.name e) ty e0) ->
     entry_matches (Entry.name e) ty e ->
     PSU.get (PSU.add A e) (Entry.name e) ty = Ok e).
Proof.
  unfold PSU.add. split; [rewrite length_app; cbn; lia|]. split.
  - intros name ty e0 H. apply get_Ok in H as [i Hm]. apply get_Ok.
    exists i. now apply first_match_app_l.
  - intros ty Hno He. apply get_Ok. exists (length A). now apply first_match_snoc.
Qed.

Lemma add_keeps_earlier_entries_first_witness :
  PSU.get (PSU.add sample_dirs (Entry.File.new sample_now name_dot [x01] None (zeros 32)))
          name_dot None
    = Ok (Entry.Directory.new sample_now name_dot 0 None (zeros 32)) /\
  PSU.get (PSU.add sample_dirs (Entry.File.new sample_now name_dot [x01] None (zeros 32)))
          name_dot (Some EntryType.FILE)
    = Ok (Entry.File.new sample_now name_dot [x01] None (zeros 32)).
Proof.
  destruct (add_keeps_earlier_entries_first sample_dirs
              (Entry.File.new sample_now name_dot [x01] None (zeros 32)))
    as (_ & Hkeep & Hnew).
  split.
  - apply Hkeep. reflexivity.
  - apply (Hnew (Some EntryType.FILE)).
    + intros e0 He0 [_ [H|H]]; [discriminate|]. vm_compute in He0.
      repeat (apply elem_of_cons in He0 as [->|He0]; [discriminate|]).
      now apply elem_of_nil in He0.
    + split; [reflexivity|now right].
Defined.

(** ** [write] and the operations around it *)

Lemma write_existing now (A : PSU.t) name data d i e :
  PSU.as_bytes data = Ok d ->
  first_match A name None i e ->
  PSU.write now A name data
  = Ok (<[i := Entry.set_header_size (Entry.set_content e d) (len d)]> A,
        Entry.set_header_size (Entry.set_content e d) (len d)).
Proof.
  intros Hd Hm. unfold PSU.write. rewrite Hd. cbn [mbind result_bind].
  rewrite has_true.
  2:{ destruct Hm as (Hi & [Hn _] & _). exists e.
      split; [eapply list_elem_of_lookup_2, Hi|exact Hn]. }
  cbn [mbind result_bind].
  rewrite (proj2 (index_Ok A name None i) (ex_intro _ e Hm)). cbn [mbind result_bind].
  now rewrite (entries_item_index _ _ _ _ _ Hm).
Qed.

Lemma write_new now (A : PSU.t) name data d :
  PSU.as_bytes data = Ok d ->
  (forall e, e ∈ A -> Entry.name e <> name) ->
  PSU.write now A name data
  = Ok (A ++ [Entry.File.new now name d None (zeros 32)],
        Entry.File.new now name d None (zeros 32)).
Proof.
  intros Hd Hno. unfold PSU.write. rewrite Hd. cbn [mbind result_bind].
  now rewrite (has_false _ _ Hno).
Qed.

(** Either some entry is the first of its name, or no entry has the name. *)
Lemma first_named_or_absent (A : PSU.t) name :
  (exists i e, first_match A name None i e) \/
  (forall e, e ∈ A -> Entry.name e <> name).
Proof.
  destruct (PSU.index A name None) as [i|x] eqn:E.
  - left. apply index_Ok in E as [e He]. eauto.
  - right. apply index_Raise in E as [_ Hno]. intros e Hin Hn.
    apply (Hno e Hin). split; [exact Hn|now left].
Qed.

Lemma first_match_insert (A : PSU.t) name ty ty' i e e' :
  first_match A name ty i e ->
  entry_matches name ty' e' ->
  (forall e0, entry_matches name ty' e0 -> entry_matches name ty e0) ->
  first_match (<[i := e']> A) name ty' i e'.
Proof.
  intros (Hi & He & Hf) He' Himp. pose proof (lookup_lt_Some _ _ _ Hi) as Hlt.
  split; [now apply list_lookup_insert_eq|]. split; [exact He'|].
  intros j e0 Hj He0 Hm. rewrite list_lookup_insert_ne in He0 by lia.
  exact (Hf j e0 Hj He0 (Himp _ Hm)).
Qed.

(** X12. After [write(entryName, data)], [read(entryName)] returns the data,
    provided the first entry of that name, if there is one, has a header of
    type FILE. *)
Theorem write_then_read now (A : PSU.t) (name : str) (data : pydata) (d : bytes) :
  PSU.as_bytes data = Ok d ->
  (forall i e, first_match A name None i e -> entry_type e = EntryType.FILE) ->
  exists A' e',
    PSU.write now A name data = Ok (A', e') /\
    PSU.read A' name = Ok d.
Proof.
  intros Hd Hfile. destruct (first_named_or_absent A name) as [(i & e & Hm)|Hno].
  - rewrite (write_existing now A name data d i e Hd Hm). eexists _, _.
    split; [reflexivity|].
    apply (read_first _ name i (Entry.set_header_size (Entry.set_content e d) (len d)));
      [|reflexivity].
    apply (first_match_insert A name None (Some EntryType.FILE) i e); [exact Hm| |].
    + pose proof (Hfile i e Hm) as Hty.
      destruct Hm as (_ & [Hn _] & _). split; [exact Hn|]. right.
      f_equal. exact Hty.
    + intros e0 [Hn _]. split; [exact Hn|now left].
  - rewrite (write_new now A name data d Hd Hno). eexists _, _.
    split; [reflexivity|].
    apply (read_first _ name (length A) (Entry.File.new now name d None (zeros 32)));
      [|reflexivity].
    apply first_match_snoc.
    + intros e0 Hin [Hn _]. exact (Hno e0 Hin Hn).
    + split; [reflexivity|now right].
Qed.

Lemma write_then_read_witness :
  exists A' e',
    PSU.write sample_now sample_archive name_icon_sys (PyStr name_x) = Ok (A', e') /\
    PSU.read A' name_icon_sys = Ok [x78].
Proof.
  apply (write_then_read sample_now sample_archive name_icon_sys (PyStr name_x) [x78] eq_refl).
  intros i e (Hi & [Hn _] & _).
  destruct i as [|[|[|[|i]]]]; vm_compute in Hi; try discriminate;
    injection Hi as <-; try reflexivity; vm_compute in Hn; discriminate.
Defined.

(** X13. [write] on a new name followed by [delete] of that name gives the
    archive back. *)
Theorem write_new_then_delete now (A : PSU.t) (name : str) (data : pydata) (d : bytes) :
  PSU.as_bytes data = Ok d ->
  (forall e, e ∈ A -> Entry.name e <> name) ->
  exists A' e',
    PSU.write now A name data = Ok (A', e') /\
    length A' = S (length A) /\
    PSU.delete A' name = Ok A.
Proof.
  intros Hd Hno. rewrite (write_new now A name data d Hd Hno). eexists _, _.
  split; [reflexivity|]. split; [rewrite length_app; cbn; lia|].
  unfold PSU.delete.
  rewrite (proj2 (index_Ok _ name None (length A))).
  2:{ eexists. apply first_match_snoc.
      - intros e0 Hin [Hn _]. exact (Hno e0 Hin Hn).
      - split; [reflexivity|now left]. }
  cbn [mbind result_bind]. rewrite delete_take_drop.
  rewrite take_app_length, drop_ge by (rewrite length_app; cbn; lia).
  now rewrite app_nil_r.
Qed.

Lemma write_new_then_delete_witness :
  exists A' e',
    PSU.write sample_now sample_dirs name_icon_sys (PyBytes [x01]) = Ok (A', e') /\
    length A' = 4%nat /\
    PSU.delete A' name_icon_sys = Ok sample_dirs.
Proof.
  apply (write_new_then_delete sample_now sample_dirs name_icon_sys (PyBytes [x01]) [x01] eq_refl).
  intros e He. vm_compute in He.
  repeat (apply elem_of_cons in He as [->|He]; [discriminate|]).
  now apply elem_of_nil in He.
Defined.

(** X14. Of two [write]s to the same name in a row, the second alone decides
    the outcome: the archive and the entry returned are those of the second
    [write] made on the archive as it was before the first. *)
Theorem write_twice_last_wins now (A A1 : PSU.t) (name : str) (data1 data2 : pydata)
    (e1 : Entry.t) :
  PSU.write now A name data1 = Ok (A1, e1) ->
  PSU.write now A1 name data2 = PSU.write now A name data2.
Proof.
  intros H1.
  destruct (PSU.as_bytes data1) as [d1|] eqn:Hd1;
    [|unfold PSU.write in H1; rewrite Hd1 in H1; discriminate].
  destruct (PSU.as_bytes data2) as [d2|x] eqn:Hd2;
    [|unfold PSU.write; now rewrite Hd2].
  destruct (first_named_or_absent A name) as [(i & e & Hm)|Hno].
  - rewrite (write_existing now A name data1 d1 i e Hd1 Hm) in H1. injection H1 as <- <-.
    rewrite (write_existing now A name data2 d2 i e Hd2 Hm).
    erewrite write_existing; [|exact Hd2|].
    2:{ apply (first_match_insert A name None None i e); [exact Hm| |auto].
        destruct Hm as (_ & [Hn _] & _). split; [exact Hn|now left]. }
    now rewrite list_insert_insert_eq.
  - rewrite (write_new now A name data1 d1 Hd1 Hno) in H1. injection H1 as <- <-.
    rewrite (write_new now A name data2 d2 Hd2 Hno).
    erewrite write_existing; [|exact Hd2|].
    2:{ apply first_match_snoc.
        - intros e0 Hin [Hn _]. exact (Hno e0 Hin Hn).
        - split; [reflexivity|now left]. }
    f_equal. f_equal.
    rewrite insert_app_r_alt by lia. now rewrite Nat.sub_diag.
Qed.

Lemma write_twice_last_wins_witness :
  PSU.write sample_now sample_archive name_icon_sys (PyBytes [x01])
  = PSU.write sample_now sample_dirs name_icon_sys (PyBytes [x01]).
Proof.
  apply (write_twice_last_wins sample_now sample_dirs sample_archive name_icon_sys
           (PyBytes (replicate 10 x00)) (PyBytes [x01])
           (Entry.File.new sample_now name_icon_sys (replicate 10 x00) None (zeros 32))).
  reflexivity.
Defined.

(** ** [save] *)

Lemma set_header_size_same e : Entry.set_header_size e (entry_size e) = e.
Proof. now destruct e as [cls nm [ty sz cr mo sa u1 u2 u3] p ct]. Qed.

Lemma saved_entry_is_resize n e :
  saved_entry n e = Entry.set_header_size e (entry_size (saved_entry n e)).
Proof.
  destruct e as [cls nm [ty sz cr mo sa u1 u2 u3] p ct].
  unfold saved_entry, PSU.save_entry. cbn [Entry.header Entry.name Header.type].
  destruct (bool_decide _); [destruct (_ || _)|]; destruct cls, ct; reflexivity.
Qed.

(** X15. [save] changes nothing of the archive but [header.size] fields,
    whether it returns or raises: every entry keeps its class, name, padding,
    content, type, timestamps, sector address and unknown fields, at its
    position. *)
Theorem save_changes_only_sizes (A A1 : PSU.t) (r : result bytes) :
  PSU.save A = (A1, r) ->
  Forall2 (fun e e1 => e1 = Entry.set_header_size e (entry_size e1)) A A1.
Proof.
  intros Hs. unfold PSU.save in Hs.
  assert (Hmap : forall l, Forall2 (fun e e1 => e1 = Entry.set_header_size e (entry_size e1))
                             l (map (saved_entry (len A)) l)).
  { induction l; constructor; [apply saved_entry_is_resize|assumption]. }
  destruct r as [data|x].
  - apply save_loop_Ok in Hs as (-> & _). apply Hmap.
  - apply save_loop_Raise in Hs as (pre & e & post & HA & _ & _ & ->).
    rewrite HA at 1. cbn [app]. apply Forall2_app; [apply Hmap|].
    constructor; [apply saved_entry_is_resize|].
    apply Forall_Forall2_diag, Forall_forall. intros e0 _.
    symmetry. apply set_header_size_same.
Qed.

Lemma save_changes_only_sizes_witness :
  Forall2 (fun e e1 => e1 = Entry.set_header_size e (entry_size e1))
    sample_archive sample_saved /\
  Forall2 (fun e e1 => e1 = Entry.set_header_size e (entry_size e1))
    unencodable_archive (PSU.save unencodable_archive).1.
Proof.
  split.
  - apply (save_changes_only_sizes sample_archive sample_saved (Ok sample_bytes)).
    vm_compute. reflexivity.
  - apply (save_changes_only_sizes unencodable_archive _ (Raise UnicodeEncodeError)).
    reflexivity.
Defined.

Lemma entry_serialize_512 e bs :
  length (Entry.padding e) = 32%nat ->
  name_fits (Entry.name e) = true ->
  Entry.serialize e = Ok bs -> length bs = 512%nat.
Proof.
  intros Hp Hfit Hs. apply entry_serialize_inv in Hs as (hb & nm & Hh & Hn & ->).
  unfold name_fits in Hfit. rewrite Hn in Hfit. apply bool_decide_eq_true in Hfit.
  rewrite !length_app, (header_serialize_length _ _ Hh), Hp, length_ljust by exact Hfit.
  reflexivity.
Qed.

Lemma save_entry_length n e e' bs :
  length (Entry.padding e) = 32%nat ->
  name_fits (Entry.name e) = true ->
  PSU.save_entry n e = (e', Ok bs) ->
  len bs = entry_wire_length e.
Proof.
  intros Hp Hfit Hs. unfold PSU.save_entry in Hs.
  match type of Hs with Entry.call_serialize ?x = _ => set (e1 := x) in * end.
  assert (He1 : Entry.cls e1 = Entry.cls e /\ Entry.content e1 = Entry.content e /\
                Entry.padding e1 = Entry.padding e /\ Entry.name e1 = Entry.name e).
  { subst e1. destruct (bool_decide _); [destruct (_ || _)|]; repeat split. }
  destruct He1 as (Hcls & Hct & Hpad & Hnm).
  unfold entry_wire_length. rewrite <- Hcls, <- Hct. rewrite <- Hpad in Hp.
  rewrite <- Hnm in Hfit. clearbody e1. clear Hcls Hct Hpad Hnm.
  unfold Entry.call_serialize in Hs. destruct (Entry.cls e1).
  - injection Hs as _ Hs. unfold len. now rewrite (entry_serialize_512 _ _ Hp Hfit Hs).
  - destruct (Entry.content e1) as [c|] eqn:Hc;
      [|unfold Entry.File.serialize in Hs; rewrite Hc in Hs; discriminate].
    destruct (file_serialize_inv e1 c e' bs Hc Hs) as (-> & head & Hh & ->).
    rewrite !len_app. unfold len at 1.
    rewrite (entry_serialize_512 (Entry.set_header_size e1 (len c)) head Hp Hfit Hh).
    unfold len at 2.
    rewrite length_zeros.
    pose proof (getContentPaddingSize_range (len c)). lia.
Qed.

Lemma entry_wire_length_pages e :
  exists k, 1 <= k /\ entry_wire_length e = 512 * k.
Proof.
  unfold entry_wire_length.
  destruct (Entry.cls e); [exists 1; lia|].
  destruct (Entry.content e) as [c|]; [|exists 1; lia].
  pose proof (getContentPaddingSize_range (len c)) as Hr.
  pose proof (len_nonneg c) as Hc.
  rewrite getContentPaddingSize_formula in *.
  exists (1 + 2 * ((len c + (1024 - len c mod 1024) mod 1024) / 1024)).
  Z.to_euclidean_division_equations; lia.
Qed.

Lemma save_length_sum (A A1 : PSU.t) (data : bytes) :
  Forall (fun e => length (Entry.padding e) = 32%nat) A ->
  Forall (fun e => name_fits (Entry.name e) = true) A ->
  PSU.save A = (A1, Ok data) ->
  len data = foldr (fun e acc => entry_wire_length e + acc) 0 A /\
  len data mod 512 = 0 /\
  512 * len A <= len data.
Proof.
  intros Hp Hfit Hs. unfold PSU.save in Hs.
  apply save_loop_Ok in Hs as (_ & Hok & ->). cbn [app].
  assert (Hsum : forall n,
            Forall (fun e => is_Ok (PSU.save_entry n e).2 = true) A ->
            len (concat (map (saved_bytes n) A))
            = foldr (fun e acc => entry_wire_length e + acc) 0 A).
  { intros n Hn. clear Hok.
    induction A as [|e A IH]; [reflexivity|].
    inversion Hp; inversion Hfit; inversion Hn; subst.
    cbn [map concat foldr]. rewrite len_app, IH by assumption. f_equal.
    unfold saved_bytes.
    destruct (PSU.save_entry n e).2 as [b|] eqn:E; [|discriminate].
    eapply save_entry_length; try eassumption.
    rewrite save_entry_eta, E. reflexivity. }
  rewrite (Hsum _ Hok). split; [reflexivity|]. clear.
  assert (H : exists k, len A <= k /\
                foldr (fun e acc => entry_wire_length e + acc) 0 A = 512 * k).
  { induction A as [|e A (k & Hk & IH)]; [exists 0; unfold len; cbn; lia|].
    destruct (entry_wire_length_pages e) as (k1 & Hk1 & He).
    exists (k1 + k). cbn [foldr]. rewrite IH, He. unfold len in *. cbn [length].
    rewrite Nat2Z.inj_succ. split; lia. }
  destruct H as (k & Hk & ->). split; [|lia].
  rewrite Z.mul_comm. apply Z.mod_mul. lia.
Qed.

(** X16. For entries with 32-byte padding blocks and names that fit the name
    field, the bytes [save] writes are 512 for every directory and
    512 + content + pad for every file: their number is the sum over the
    entries, a multiple of 512, and at least 512 times the number of
    entries. *)
Theorem save_length (A A1 : PSU.t) (data : bytes) :
  Forall (fun e => length (Entry.padding e) = 32%nat) A ->
  Forall (fun e => name_fits (Entry.name e) = true) A ->
  PSU.save A = (A1, Ok data) ->
  len data = foldr (fun e acc => entry_wire_length e + acc) 0 A /\
  len data mod 512 = 0 /\
  512 * len A <= len data.
Proof. apply save_length_sum. Qed.


Lemma save_length_witness :
  len sample_bytes = 512 + 512 + 512 + (512 + 10 + 1014).
Proof.
  destruct (save_length sample_archive sample_saved sample_bytes) as (H & _).
  - repeat constructor.
  - repeat constructor.
  - vm_compute. reflexivity.
  - rewrite H. reflexivity.
Defined.

(** X17. For every archive of at most 2^32 entries whose entries follow the
    data model, have names that fit the name field, header fields that fit
    their codes and, for files, a content of less than 2^32 bytes, [save]
    serializes every entry without raising and reaches the file: it returns
    when opening and writing the file return, and what it raises is what they
    raise, an [OSError] for a path that cannot be opened. *)
Theorem save_reaches_file_when_fields_fit (write_file : str -> bytes -> result unit)
    (A : PSU.t) (filepath : str) :
  len A <= 2 ^ 32 ->
  Forall (fun e => entry_wf e = true) A ->
  Forall (fun e => entry_packable e = true) A ->
  Forall (fun e => name_fits (Entry.name e) = true) A ->
  exists A1 data,
    PSU.save A = (A1, Ok data) /\
    PSU.save_file write_file A filepath = (A1, write_file filepath data).
Proof.
  intros Hn Hwf Hp Hf.
  destruct (save_succeeds A Hn Hwf Hp Hf) as (A1 & data & Hs).
  exists A1, data. split; [exact Hs|].
  unfold PSU.save_file. rewrite Hs. reflexivity.
Qed.

Lemma save_reaches_file_when_fields_fit_witness :
  exists A1 data,
    PSU.save sample_archive = (A1, Ok data) /\
    PSU.save_file file_written sample_archive path_out_psu = (A1, Ok tt).
Proof.
  apply (save_reaches_file_when_fields_fit file_written sample_archive path_out_psu);
    [vm_compute; discriminate|..]; repeat constructor.
Defined.

Lemma utf8_encode_char_raises c e :
  utf8_encode_char c = Raise e -> e = UnicodeEncodeError.
Proof.
  unfold utf8_encode_char.
  repeat match goal with |- (if ?b then _ else _) = _ -> _ => destruct b end;
    intros [= <-] || discriminate; reflexivity.
Qed.

Lemma str_encode_raises s e : str_encode s = Raise e -> e = UnicodeEncodeError.
Proof.
  induction s as [|c r IH]; cbn [str_encode]; [discriminate|].
  destruct (utf8_encode_char c) eqn:Ec; cbn [mbind result_bind].
  - destruct (str_encode r); cbn [mbind result_bind]; [discriminate|].
    intros [= <-]. now apply IH.
  - intros [= <-]. exact (utf8_encode_char_raises _ _ Ec).
Qed.

Lemma entry_serialize_raises e x :
  Entry.serialize e = Raise x -> x = StructError \/ x = UnicodeEncodeError.
Proof.
  unfold Entry.serialize.
  destruct (Header.serialize _) eqn:Eh; cbn [mbind result_bind].
  - destruct (str_encode _) eqn:En; cbn [mbind result_bind]; [discriminate|].
    intros [= <-]. right. exact (str_encode_raises _ _ En).
  - intros [= <-]. left. exact (struct_pack_raises _ _ _ Eh).
Qed.

Lemma call_serialize_raises e x :
  (Entry.call_serialize e).2 = Raise x ->
  x = StructError \/ x = UnicodeEncodeError \/
  (x = AttributeError /\ Entry.cls e = FileClass /\ Entry.content e = None).
Proof.
  unfold Entry.call_serialize, Entry.File.serialize.
  destruct (Entry.cls e); cbn [snd].
  - intros H. apply entry_serialize_raises in H. tauto.
  - destruct (Entry.content e); cbn [snd]; [|intros [= <-]; auto].
    destruct (Entry.serialize _) eqn:E; cbn [mbind result_bind].
    + destruct (_ <? _); discriminate.
    + intros [= <-]. apply entry_serialize_raises in E. tauto.
Qed.

(** An exception that leaves the loop of [save] comes from the serialization
    of an entry. *)
Lemma save_loop_raises (A A1 : PSU.t) (x : exn) :
  PSU.save A = (A1, Raise x) ->
  x = StructError \/ x = UnicodeEncodeError \/
  (x = AttributeError /\
   exists e, e ∈ A /\ Entry.cls e = FileClass /\ Entry.content e = None).
Proof.
  intros Hs. unfold PSU.save in Hs.
  apply save_loop_Raise in Hs as (pre & e & post & HA & _ & He & _).
  unfold PSU.save_entry in He. apply call_serialize_raises in He.
  destruct He as [H|[H|(H & Hc & Hn)]]; [tauto|tauto|].
  right. right. split; [exact H|]. exists e. rewrite HA.
  split; [apply elem_of_app; right; apply elem_of_cons; now left|].
  revert Hc Hn. destruct (bool_decide _); [destruct (_ || _)|]; cbn; auto.
Qed.

(** X18. When [save] raises, one of two things happened. Either the loop
    raised while it serialized an entry, before the file was opened: then the
    exception is [struct.error] (a header field that does not fit its code),
    [UnicodeEncodeError] (a name that UTF-8 cannot encode) or
    [AttributeError], the last only when some [File] object has no content. Or
    every entry was serialized and the exception is the one that opening or
    writing the file raised, such as an [OSError]. *)
Theorem save_raises_only (write_file : str -> bytes -> result unit)
    (A A1 : PSU.t) (filepath : str) (x : exn) :
  PSU.save_file write_file A filepath = (A1, Raise x) ->
  (PSU.save A = (A1, Raise x) /\
   (x = StructError \/ x = UnicodeEncodeError \/
    (x = AttributeError /\
     exists e, e ∈ A /\ Entry.cls e = FileClass /\ Entry.content e = None))) \/
  (exists data, PSU.save A = (A1, Ok data) /\ write_file filepath data = Raise x).
Proof.
  unfold PSU.save_file. destruct (PSU.save A) as [A' [data|y]] eqn:Hs;
    cbn [mbind result_bind]; intros [= <- H].
  - right. exists data. split; [reflexivity|exact H].
  - subst y. left. split; [reflexivity|]. exact (save_loop_raises A A' x Hs).
Qed.

Lemma save_raises_only_witness :
  (PSU.save sample_archive = (sample_saved, Raise OSError) /\
   (OSError = StructError \/ OSError = UnicodeEncodeError \/
    (OSError = AttributeError /\
     exists e, e ∈ sample_archive /\ Entry.cls e = FileClass /\ Entry.content e = None))) \/
  (exists data,
     PSU.save sample_archive = (sample_saved, Ok data) /\
     no_such_directory path_out_psu data = Raise OSError).
Proof.
  apply (save_raises_only no_such_directory sample_archive sample_saved path_out_psu OSError).
  vm_compute; reflexivity.
Defined.

Lemma save_loop_result_congr n (A B : PSU.t) :
  Forall2 (fun a b => (PSU.save_entry n a).2 = (PSU.save_entry n b).2) A B ->
  forall d1 d2 data, (PSU.save_loop n d1 A data).2 = (PSU.save_loop n d2 B data).2.
Proof.
  induction 1 as [|a b A B Hab _ IH]; intros d1 d2 data; [reflexivity|].
  cbn [PSU.save_loop]. rewrite (save_entry_eta n a), (save_entry_eta n b), Hab.
  destruct (PSU.save_entry n b).2; [apply IH|reflexivity].
Qed.

Lemma save_entry_on_wire n e :
  (PSU.save_entry n (entry_on_wire e)).2 = (PSU.save_entry n e).2.
Proof.
  destruct e as [cls nm [ty sz [] [] sa u1 u2 u3] p ct].
  unfold PSU.save_entry, entry_on_wire.
  cbn [Entry.header Entry.name Entry.cls Entry.content header_on_wire Header.type].
  destruct (bool_decide _); [destruct (_ || _)|]; destruct cls, ct; reflexivity.
Qed.

(** X19. An archive written by [save], read back by [__parse] and saved again
    gives the same bytes: for archives of the data model whose names fit the
    name field and have no trailing NUL, [save] after [__parse] reproduces
    what [save] wrote. *)
Theorem save_parse_save now (A A1 : PSU.t) (data : bytes) :
  Forall (fun e => entry_wf e = true) A ->
  Forall (fun e => name_fits (Entry.name e) = true) A ->
  Forall (fun e => no_trailing_nul (Entry.name e) = true) A ->
  PSU.save A = (A1, Ok data) ->
  exists A2, PSU.parse now data = Some (Ok A2) /\ (PSU.save A2).2 = Ok data.
Proof.
  intros Hwf Hfit Hnul Hs.
  destruct (save_parse now A A1 data Hwf Hfit Hnul Hs) as [-> Hp].
  eexists. split; [exact Hp|].
  replace (Ok data) with (PSU.save A).2 by now rewrite Hs.
  unfold PSU.save. unfold len at 1. rewrite !length_map. fold (len A).
  apply save_loop_result_congr.
  rewrite map_map. apply Forall2_fmap_l, Forall_Forall2_diag, Forall_forall.
  intros e _. unfold compose. now rewrite save_entry_on_wire, save_entry_idem.
Qed.

Lemma save_parse_save_witness :
  exists A2, PSU.parse sample_now sample_bytes = Some (Ok A2) /\
             (PSU.save A2).2 = Ok sample_bytes.
Proof.
  apply (save_parse_save sample_now sample_archive sample_saved sample_bytes);
    [repeat constructor..|vm_compute; reflexivity].
Defined.

(** Replacing an entry that does not answer a lookup by another that does not
    leaves the lookup as it was. *)
Lemma get_insert_nonmatching (A : PSU.t) name ty i e e' :
  A !! i = Some e ->
  ~ entry_matches name ty e ->
  ~ entry_matches name ty e' ->
  PSU.get (<[i := e']> A) name ty = PSU.get A name ty.
Proof.
  intros Hi He He'. pose proof (lookup_lt_Some _ _ _ Hi) as Hlt.
  destruct (PSU.get A name ty) as [e0|x] eqn:G.
  - apply get_Ok in G as (j & Hj & Hm & Hf). apply get_Ok. exists j.
    assert (j <> i) by (intros ->; congruence).
    split; [now rewrite list_lookup_insert_ne|]. split; [exact Hm|].
    intros k ek Hk Hek. destruct (decide (k = i)) as [->|Hne].
    + rewrite list_lookup_insert_eq in Hek by exact Hlt. now injection Hek as <-.
    + rewrite list_lookup_insert_ne in Hek by auto. exact (Hf k ek Hk Hek).
  - apply get_Raise in G as [-> Hno]. apply get_Raise. split; [reflexivity|].
    intros e0 Hin. apply list_elem_of_lookup in Hin as [k Hk].
    destruct (decide (k = i)) as [->|Hne].
    + rewrite list_lookup_insert_eq in Hk by exact Hlt. now injection Hk as <-.
    + rewrite list_lookup_insert_ne in Hk by auto.
      exact (Hno e0 (list_elem_of_lookup_2 _ _ _ Hk)).
Qed.

Lemma save_entry_directory_content n e d s :
  is_directory e ->
  (PSU.save_entry n (Entry.set_header_size (Entry.set_content e d) s)).2
  = (PSU.save_entry n e).2.
Proof.
  intros Hd.
  assert (Hd' : is_directory (Entry.set_header_size (Entry.set_content e d) s)) by exact Hd.
  rewrite (save_entry_directory n _ Hd'), (save_entry_directory n e Hd). reflexivity.
Qed.

(** X20. [write] to a name whose first entry is a directory does not refuse:
    it stores the data on that [Directory] object, where no other operation
    looks. Afterwards [read] of the name answers as before the [write], and
    [save] writes the same bytes as before. *)
Theorem write_to_directory now (A : PSU.t) (name : str) (data : pydata) (d : bytes)
    (i : nat) (e : Entry.t) :
  PSU.as_bytes data = Ok d ->
  first_match A name None i e ->
  is_directory e ->
  exists A' e',
    PSU.write now A name data = Ok (A', e') /\
    A' !! i = Some e' /\
    Entry.cls e' = DirectoryClass /\ Entry.content e' = Some d /\
    PSU.read A' name = PSU.read A name /\
    (PSU.save A').2 = (PSU.save A).2.
Proof.
  intros Hd Hm Hdir. rewrite (write_existing now A name data d i e Hd Hm).
  destruct Hm as (Hi & _). pose proof (lookup_lt_Some _ _ _ Hi) as Hlt.
  destruct Hdir as [Hcls Hty].
  eexists _, _. split; [reflexivity|].
  split; [now apply list_lookup_insert_eq|]. split; [exact Hcls|]. split; [reflexivity|].
  split.
  - assert (Hnot : forall e0, entry_type e0 = entry_type e ->
                     ~ entry_matches name (Some EntryType.FILE) e0).
    { intros e0 He0 [_ [H|H]]; [discriminate|]. injection H as H.
      rewrite He0, Hty in H. discriminate. }
    unfold PSU.read.
    now rewrite (get_insert_nonmatching A name (Some EntryType.FILE) i e
                   (Entry.set_header_size (Entry.set_content e d) (len d)) Hi
                   (Hnot e eq_refl) (Hnot _ eq_refl)).
  - unfold PSU.save. unfold len at 1. rewrite length_insert. fold (len A).
    apply save_loop_result_congr.
    rewrite <- (list_insert_id A i e Hi) at 2.
    apply Forall2_insert; [apply Forall_Forall2_diag, Forall_forall; auto|].
    apply save_entry_directory_content. now split.
Qed.

Lemma write_to_directory_witness :
  exists A' e',
    PSU.write sample_now shadowed_archive name_x (PyBytes [x02; x03]) = Ok (A', e') /\
    A' !! 0%nat = Some e' /\
    Entry.cls e' = DirectoryClass /\ Entry.content e' = Some [x02; x03] /\
    PSU.read A' name_x = Ok [x01] /\
    (PSU.save A').2 = (PSU.save shadowed_archive).2.
Proof.
  destruct (write_to_directory sample_now shadowed_archive name_x (PyBytes [x02; x03])
              [x02; x03] 0 (Entry.Directory.new sample_now name_x 0 None (zeros 32)) eq_refl)
    as (A' & e' & Hw & Hi & Hc & Hct & Hr & Hs).
  - split; [reflexivity|]. split; [split; [reflexivity|now left]|]. intros j e0 Hj. lia.
  - split; reflexivity.
  - exists A', e'. repeat split; assumption.
Defined.

(** ** [__parse] *)

Lemma header_deserialize_datetimes data h :
  Header.deserialize data = Ok h ->
  datetime_ok (Header.created h) = true /\ datetime_ok (Header.modified h) = true.
Proof.
  unfold Header.deserialize.
  destruct (struct_unpack _ _) as [f|]; cbn [mbind result_bind]; [|discriminate].
  unfold datetime_new.
  destruct (date_fields_ok (item f 9) _ _ && time_fields_ok (item f 6) _ _) eqn:Ec;
    cbn [mbind result_bind]; [|discriminate].
  destruct (date_fields_ok (item f 19) _ _ && time_fields_ok (item f 16) _ _) eqn:Em;
    cbn [mbind result_bind]; [|discriminate].
  intros [= <-]. split; assumption.
Qed.

Lemma entry_deserialize_parsed_ok now data e n :
  Entry.deserialize now data = Ok (e, n) -> parsed_ok e.
Proof.
  rewrite entry_deserialize_eq.
  destruct (Header.deserialize _) as [h|] eqn:Hh; cbn [mbind result_bind]; [|discriminate].
  destruct (Entry.getName _) as [nm|]; cbn [mbind result_bind]; [|discriminate].
  destruct (header_deserialize_datetimes _ _ Hh) as [Hc Hm].
  pose proof (header_deserialize_size_range _ _ Hh) as Hsz.
  assert (Hpad : (length (Entry.getPadding (take 32 (drop 32 data))) <= 32)%nat).
  { unfold Entry.getPadding, Entry.PADDING_SIZE. rewrite !length_take. lia. }
  destruct (bool_decide (Header.type h = EntryType.FILE)) eqn:Hf.
  - apply bool_decide_eq_true in Hf. intros [= <- _].
    repeat split; try assumption; try apply Hsz.
    cbn [Entry.cls Entry.File.new]. eexists. split; [reflexivity|].
    unfold slice_to. rewrite (proj2 (Z.leb_le _ _)) by apply Hsz.
    unfold len, entry_size. rewrite length_take. cbn [Entry.header Entry.File.new]. lia.
  - destruct (bool_decide (Header.type h = EntryType.DIRECTORY)) eqn:Hd; [|discriminate].
    apply bool_decide_eq_true in Hd. intros [= <- _].
    repeat split; try assumption; apply Hsz.
Qed.

Lemma parse_loop_parsed_ok now fuel data :
  forall offset acc A,
    Forall parsed_ok acc ->
    PSU.parse_loop now fuel data offset acc = Some (Ok A) ->
    Forall parsed_ok A.
Proof.
  induction fuel as [|fuel IH]; intros offset acc A Hacc; rewrite parse_loop_eq;
    destruct (offset <? len data); try discriminate;
    try (intros [= <-]; exact Hacc).
  destruct (Entry.deserialize _ _) as [[e n]|] eqn:E; [|discriminate].
  apply IH. apply Forall_app. split; [exact Hacc|].
  constructor; [|constructor]. exact (entry_deserialize_parsed_ok _ _ _ _ E).
Qed.

Lemma parse_parsed_ok now (data : bytes) (A : PSU.t) :
  PSU.parse now data = Some (Ok A) -> Forall parsed_ok A.
Proof. apply parse_loop_parsed_ok. constructor. Qed.

(** X21. Every entry [__parse] returns is a [File] object with a header of
    type FILE or a [Directory] object with a header of type DIRECTORY, has
    timestamps that are date-times and a size below 2^32, and a padding block
    of at most 32 bytes; a file has a content of at most [header.size] bytes, a
    directory has none. *)
Theorem parse_returns_well_typed_entries now (data : bytes) (A : PSU.t) :
  PSU.parse now data = Some (Ok A) -> Forall parsed_ok A.
Proof. apply parse_parsed_ok. Qed.

Lemma parse_returns_well_typed_entries_witness :
  exists A, PSU.parse sample_now truncated_file = Some (Ok A) /\ Forall parsed_ok A.
Proof.
  destruct (PSU.parse sample_now truncated_file) as [[A|]|] eqn:E;
    try (vm_compute in E; discriminate).
  exists A. split; [reflexivity|].
  exact (parse_returns_well_typed_entries sample_now truncated_file A E).
Defined.

Lemma parse_loop_count now fuel data :
  forall offset acc A,
    PSU.parse_loop now fuel data offset acc = Some (Ok A) ->
    len acc <= len A /\
    (len acc < len A -> offset + 512 * (len A - len acc - 1) < len data).
Proof.
  induction fuel as [|fuel IH]; intros offset acc A; rewrite parse_loop_eq;
    destruct (Z.ltb_spec offset (len data)) as [Hlt|Hge]; try discriminate;
    try (intros [= <-]; lia).
  destruct (Entry.deserialize _ _) as [[e n]|] eqn:E; [|discriminate].
  intros Hp. apply IH in Hp as [H1 H2].
  apply entry_deserialize_size in E.
  rewrite len_app in H1, H2. change (len [e]) with 1 in H1, H2.
  split; [lia|]. intros _.
  destruct (Z.eq_dec (len A) (len acc + 1)) as [Heq|Hne].
  - rewrite Heq. replace (len acc + 1 - len acc - 1) with 0 by lia. lia.
  - specialize (H2 ltac:(lia)). lia.
Qed.

(** X22. Every entry takes at least 512 bytes of the buffer and starts inside
    it: [__parse] returns fewer than [len(data) / 512 + 1] entries, and none
    for the empty buffer. *)
Theorem parse_entry_count now (data : bytes) (A : PSU.t) :
  PSU.parse now data = Some (Ok A) ->
  512 * len A < len data + 512 /\ (data = [] -> A = []).
Proof.
  intros H. apply parse_loop_count in H as [_ H]. change (len (@nil Entry.t)) with 0 in H.
  pose proof (len_nonneg A) as HA. pose proof (len_nonneg data) as Hd.
  assert (Hb : 512 * len A < len data + 512).
  { destruct (Z.eq_dec (len A) 0) as [->|Hne]; [lia|]. specialize (H ltac:(lia)). lia. }
  split; [exact Hb|]. intros ->. change (len (@nil byte)) with 0 in Hb.
  destruct A; [reflexivity|]. unfold len in Hb. cbn [length] in Hb. lia.
Qed.

Lemma parse_entry_count_witness :
  exists A, PSU.parse sample_now sample_bytes = Some (Ok A) /\
            512 * len A < len sample_bytes + 512.
Proof.
  destruct (PSU.parse sample_now sample_bytes) as [[A|]|] eqn:E;
    try (vm_compute in E; discriminate).
  exists A. split; [reflexivity|].
  exact (proj1 (parse_entry_count sample_now sample_bytes A E)).
Defined.

(** The loop of [__parse] over encoded entries that are followed by further
    bytes: it decodes them one by one and goes on behind them. *)
Lemma parse_loop_through now (items : list (Entry.t * bytes)) :
  Forall (fun it => forall rest,
            Entry.deserialize now (it.2 ++ rest) = Ok (it.1, len it.2) /\ 512 <= len it.2)
         items ->
  forall fuel pre acc rest,
    PSU.parse_loop now (length items + fuel) (pre ++ concat (map snd items) ++ rest)
      (len pre) acc
    = PSU.parse_loop now fuel (pre ++ concat (map snd items) ++ rest)
        (len pre + len (concat (map snd items))) (acc ++ map fst items).
Proof.
  induction 1 as [|[e bs] items Hit _ IH]; intros fuel pre acc rest.
  - cbn [map concat length Nat.add]. change (len (@nil byte)) with 0.
    now rewrite Z.add_0_r, app_nil_r.
  - cbn [map concat fst snd length Nat.add] in *.
    destruct (Hit []) as [_ Hbig].
    rewrite parse_loop_eq.
    rewrite ltb_true.
    2:{ rewrite !len_app. pose proof (len_nonneg (concat (map snd items))).
        pose proof (len_nonneg rest). lia. }
    unfold len at 1. rewrite Nat2Z.id, drop_app_length, <- app_assoc.
    destruct (Hit (concat (map snd items) ++ rest)) as [-> _].
    rewrite <- len_app.
    replace (pre ++ bs ++ concat (map snd items) ++ rest)
      with ((pre ++ bs) ++ concat (map snd items) ++ rest) by now rewrite <- app_assoc.
    rewrite IH. rewrite <- (app_assoc acc [e]). cbn [app]. f_equal.
    rewrite !len_app. lia.
Qed.

(** The encoded entries of which the bytes of a [save] consist. *)
Lemma save_items now (A A1 : PSU.t) data :
  Forall (fun e => entry_wf e = true) A ->
  Forall (fun e => name_fits (Entry.name e) = true) A ->
  Forall (fun e => no_trailing_nul (Entry.name e) = true) A ->
  PSU.save A = (A1, Ok data) ->
  exists items : list (Entry.t * bytes),
    data = concat (map snd items) /\
    map fst items = map entry_on_wire A1 /\
    (length items <= length data)%nat /\
    Forall (fun it => forall rest,
              Entry.deserialize now (it.2 ++ rest) = Ok (it.1, len it.2) /\ 512 <= len it.2)
           items.
Proof.
  intros Hwf Hfit Hnul Hs. unfold PSU.save in Hs.
  apply save_loop_Ok in Hs as (-> & Hok & ->). cbn [app].
  set (n := len A) in *. clearbody n.
  exists (map (fun e => (entry_on_wire (saved_entry n e), saved_bytes n e)) A).
  assert (Hitems : Forall (fun it => forall rest,
            Entry.deserialize now (it.2 ++ rest) = Ok (it.1, len it.2) /\ 512 <= len it.2)
            (map (fun e => (entry_on_wire (saved_entry n e), saved_bytes n e)) A)).
  { apply Forall_map.
    induction A as [|e A IH]; [constructor|].
    inversion Hwf; inversion Hfit; inversion Hnul; inversion Hok; subst.
    constructor; [|now apply IH].
    intros rest. cbn [fst snd]. unfold saved_bytes.
    destruct (PSU.save_entry n e).2 as [b|] eqn:E; [|discriminate].
    eapply save_entry_roundtrip; try eassumption.
    rewrite save_entry_eta, E. reflexivity. }
  rewrite !map_map. cbn [fst snd].
  split; [reflexivity|]. split; [reflexivity|]. split; [|exact Hitems].
  etransitivity; [apply length_concat_ge|].
  - eapply Forall_impl; [exact Hitems|]. intros it H. apply (H []).
  - now rewrite map_map.
Qed.

(** X23. [__parse] does not tolerate a fragment after the last entry: the
    bytes of a [save] followed by 1 to 31 further bytes make it raise
    [struct.error], where the bytes alone parse. *)
Theorem parse_rejects_trailing_fragment now (A A1 : PSU.t) (data junk : bytes) :
  Forall (fun e => entry_wf e = true) A ->
  Forall (fun e => name_fits (Entry.name e) = true) A ->
  Forall (fun e => no_trailing_nul (Entry.name e) = true) A ->
  PSU.save A = (A1, Ok data) ->
  (0 < length junk < 32)%nat ->
  PSU.parse now (data ++ junk) = Some (Raise StructError).
Proof.
  intros Hwf Hfit Hnul Hs Hjunk.
  destruct (save_items now A A1 data Hwf Hfit Hnul Hs) as (items & -> & _ & Hlen & Hitems).
  unfold PSU.parse.
  replace (length (concat (map snd items) ++ junk))
    with (length items + S (length (concat (map snd items)) + length junk - length items - 1))%nat
    by (rewrite length_app; lia).
  pose proof (parse_loop_through now items Hitems) as Ht.
  specialize (Ht (S (length (concat (map snd items)) + length junk - length items - 1)) []
                 [] junk).
  cbn [app] in Ht. change (len (@nil byte)) with 0 in Ht. rewrite Ht, Z.add_0_l.
  apply parse_loop_raise.
  - rewrite len_app. unfold len. lia.
  - unfold len. rewrite Nat2Z.id, drop_app_length.
    rewrite entry_deserialize_eq, header_deserialize_wrong_size; [reflexivity|].
    rewrite length_take. lia.
Qed.

Lemma parse_rejects_trailing_fragment_witness :
  (exists A, PSU.parse sample_now sample_bytes = Some (Ok A)) /\
  PSU.parse sample_now sample_bytes_with_fragment = Some (Raise StructError).
Proof.
  split.
  - destruct (PSU.parse sample_now sample_bytes) as [[A|]|] eqn:E;
      try (vm_compute in E; discriminate). eauto.
  - apply (parse_rejects_trailing_fragment sample_now sample_archive sample_saved);
      [repeat constructor..|vm_compute; reflexivity|cbn; lia].
Defined.

(** X24. For two archives of the data model whose names fit the name field
    and have no trailing NUL, the bytes of their [save]s, one after the
    other, parse as the entries of the first followed by the entries of the
    second: the format has no header, footer or index. *)
Theorem parse_of_concatenation now (A A1 B B1 : PSU.t) (da db : bytes) :
  Forall (fun e => entry_wf e = true) (A ++ B) ->
  Forall (fun e => name_fits (Entry.name e) = true) (A ++ B) ->
  Forall (fun e => no_trailing_nul (Entry.name e) = true) (A ++ B) ->
  PSU.save A = (A1, Ok da) ->
  PSU.save B = (B1, Ok db) ->
  exists A2 B2,
    PSU.parse now da = Some (Ok A2) /\
    PSU.parse now db = Some (Ok B2) /\
    PSU.parse now (da ++ db) = Some (Ok (A2 ++ B2)).
Proof.
  intros Hwf Hfit Hnul HsA HsB.
  apply Forall_app in Hwf as [HwA HwB]. apply Forall_app in Hfit as [HfA HfB].
  apply Forall_app in Hnul as [HnA HnB].
  destruct (save_parse now A A1 da HwA HfA HnA HsA) as [_ HpA].
  destruct (save_parse now B B1 db HwB HfB HnB HsB) as [_ HpB].
  exists (map entry_on_wire A1), (map entry_on_wire B1).
  split; [exact HpA|]. split; [exact HpB|].
  destruct (save_items now A A1 da HwA HfA HnA HsA) as (ia & -> & HfstA & HlenA & HiA).
  destruct (save_items now B B1 db HwB HfB HnB HsB) as (ib & -> & HfstB & HlenB & HiB).
  rewrite <- HfstA, <- HfstB. unfold PSU.parse.
  replace (length (concat (map snd ia) ++ concat (map snd ib)))
    with (length ia + (length (concat (map snd ia)) + length (concat (map snd ib))
                       - length ia))%nat
    by (rewrite length_app; lia).
  pose proof (parse_loop_through now ia HiA) as Ht.
  specialize (Ht (length (concat (map snd ia)) + length (concat (map snd ib)) - length ia)%nat
                 [] [] (concat (map snd ib))).
  cbn [app] in Ht. change (len (@nil byte)) with 0 in Ht. rewrite Ht, Z.add_0_l.
  apply (parse_loop_concat now ib HiB). lia.
Qed.

Lemma parse_of_concatenation_witness :
  exists A2,
    PSU.parse sample_now sample_bytes = Some (Ok A2) /\
    PSU.parse sample_now (sample_bytes ++ sample_bytes) = Some (Ok (A2 ++ A2)).
Proof.
  destruct (parse_of_concatenation sample_now sample_archive sample_saved
              sample_archive sample_saved sample_bytes sample_bytes)
    as (A2 & B2 & HA & HB & HAB);
    [repeat constructor..|vm_compute; reflexivity|vm_compute; reflexivity|].
  exists A2. split; [exact HA|].
  rewrite HA in HB. injection HB as <-. exact HAB.
Defined.

(** ** From [create] to [load] *)

Lemma on_wire_saved_fields n e :
  Entry.name (entry_on_wire (saved_entry n e)) = Entry.name e /\
  Entry.cls (entry_on_wire (saved_entry n e)) = Entry.cls e /\
  entry_type (entry_on_wire (saved_entry n e)) = entry_type e /\
  entry_size (entry_on_wire (saved_entry n e)) = entry_size (saved_entry n e) /\
  Entry.content (entry_on_wire (saved_entry n e)) = file_content e.
Proof.
  destruct (saved_entry_fields n e) as (Hc & Hn & _ & Hct & Hty & _).
  unfold entry_on_wire, file_content.
  cbn [Entry.name Entry.cls Entry.content]. rewrite Hc, Hn, Hct.
  repeat split. exact Hty.
Qed.

Lemma saved_directory_size n e :
  is_directory e -> entry_size (saved_entry n e) = resolved_size n (Entry.name e).
Proof. intros Hd. unfold saved_entry. now rewrite (save_entry_directory n e Hd). Qed.

Lemma saved_file_size n now name d :
  entry_size (saved_entry n (Entry.File.new now name d None (zeros 32))) = len d.
Proof. reflexivity. Qed.

(** X25. An archive made by [create] for [base], given a file by [write] under
    a new name and written by [save], takes 2048 bytes plus the content and
    its pad, and [__parse] reads it back as the directories [base], "." and
    ".." followed by the file, with sizes 3 (for a [base] that is neither "."
    nor ".."), 0, 0 and the length of the content, from which [read] returns
    the content. *)
Theorem create_write_save_parse now (base name : str) (d : bytes) :
  datetime_ok now = true ->
  name_fits base = true -> no_trailing_nul base = true ->
  name_fits name = true -> no_trailing_nul name = true ->
  name <> base -> name <> name_dot -> name <> name_dotdot ->
  len d < 2 ^ 32 ->
  exists A e A1 data A2,
    PSU.write now (PSU.create now base) name (PyBytes d) = Ok (A, e) /\
    PSU.save A = (A1, Ok data) /\
    len data = 2048 + len d + Entry.File.getContentPaddingSize (len d) /\
    PSU.parse now data = Some (Ok A2) /\
    map Entry.name A2 = [base; name_dot; name_dotdot; name] /\
    map Entry.cls A2 = [DirectoryClass; DirectoryClass; DirectoryClass; FileClass] /\
    map entry_size A2 = [resolved_size 4 base; 0; 0; len d] /\
    PSU.read A2 name = Ok d.
Proof.
  intros Hnow Hfb Hnb Hfn Hnn Hne1 Hne2 Hne3 Hd.
  set (d0 := Entry.Directory.new now base 0 None (zeros 32)).
  set (d1 := Entry.Directory.new now name_dot 0 None (zeros 32)).
  set (d2 := Entry.Directory.new now name_dotdot 0 None (zeros 32)).
  set (f := Entry.File.new now name d None (zeros 32)).
  assert (Hw : PSU.write now (PSU.create now base) name (PyBytes d) = Ok ([d0; d1; d2; f], f)).
  { apply (write_new now (PSU.create now base) name (PyBytes d) d eq_refl).
    intros e He. change (PSU.create now base) with [d0; d1; d2] in He.
    repeat (apply elem_of_cons in He as [->|He]; [cbn; congruence|]).
    now apply elem_of_nil in He. }
  assert (Hwf : Forall (fun e => entry_wf e = true) [d0; d1; d2; f]).
  { repeat constructor; unfold entry_wf; cbn [d0 d1 d2 f Entry.Directory.new Entry.File.new
      Entry.header Entry.cls Entry.padding Header.new Header.type Header.created
      Header.modified class_type]; rewrite Hnow, !bool_decide_eq_true_2; reflexivity. }
  assert (Hfit : Forall (fun e => name_fits (Entry.name e) = true) [d0; d1; d2; f])
    by (repeat constructor; assumption).
  assert (Hnul : Forall (fun e => no_trailing_nul (Entry.name e) = true) [d0; d1; d2; f])
    by (repeat constructor; assumption).
  assert (Hpack : Forall (fun e => entry_packable e = true) [d0; d1; d2; f]).
  { repeat constructor. unfold entry_packable.
    cbn [f Entry.File.new Entry.header Entry.cls Entry.content Header.new Header.type
         Header.unk1 Header.unk2 Header.unk3 Header.sectorAddress].
    rewrite (fmt_fits_true fmt_I (len d)); [reflexivity|].
    pose proof (len_nonneg d). cbn. lia. }
  destruct (save_succeeds [d0; d1; d2; f]) as (A1 & data & Hs);
    [vm_compute; discriminate|assumption..|].
  destruct (save_parse now _ A1 data Hwf Hfit Hnul Hs) as [HA1 Hp].
  change (len [d0; d1; d2; f]) with 4 in HA1. cbn [map] in HA1.
  destruct (save_length_sum [d0; d1; d2; f] A1 data) as (Hlen & _); [|assumption..|].
  { repeat constructor. }
  exists [d0; d1; d2; f], f, A1, data, (map entry_on_wire A1).
  split; [exact Hw|]. split; [exact Hs|].
  split; [rewrite Hlen; cbn [foldr]; unfold entry_wire_length; cbn; lia|].
  split; [exact Hp|]. subst A1. cbn [map].
  destruct (on_wire_saved_fields 4 d0) as (N0 & C0 & T0 & S0 & _).
  destruct (on_wire_saved_fields 4 d1) as (N1 & C1 & T1 & S1 & _).
  destruct (on_wire_saved_fields 4 d2) as (N2 & C2 & T2 & S2 & _).
  destruct (on_wire_saved_fields 4 f) as (N3 & C3 & T3 & S3 & Ct3).
  split; [now rewrite N0, N1, N2, N3|]. split; [now rewrite C0, C1, C2, C3|].
  split.
  - rewrite S0, S1, S2, S3.
    rewrite (saved_directory_size 4 d0), (saved_directory_size 4 d1),
      (saved_directory_size 4 d2) by (split; reflexivity).
    reflexivity.
  - apply (read_first _ name 3 (entry_on_wire (saved_entry 4 f))); [|exact Ct3].
    split; [reflexivity|]. split.
    + split; [exact N3|]. right. now rewrite T3.
    + intros j e' Hj He' [Hn' _].
      destruct j as [|[|[|j]]]; [..|lia]; injection He' as <-;
        rewrite ?N0, ?N1, ?N2 in Hn'; cbn in Hn'; congruence.
Qed.

Lemma create_write_save_parse_witness :
  exists A e A1 data A2,
    PSU.write sample_now (PSU.create sample_now name_mygame) name_icon_sys
      (PyBytes (replicate 10 x00)) = Ok (A, e) /\
    PSU.save A = (A1, Ok data) /\
    len data = 3072 /\
    PSU.parse sample_now data = Some (Ok A2) /\
    map Entry.name A2 = [name_mygame; name_dot; name_dotdot; name_icon_sys] /\
    map entry_size A2 = [3; 0; 0; 10] /\
    PSU.read A2 name_icon_sys = Ok (replicate 10 x00).
Proof.
  destruct (create_write_save_parse sample_now name_mygame name_icon_sys (replicate 10 x00))
    as (A & e & A1 & data & A2 & Hw & Hs & Hl & Hp & Hn & _ & Hsz & Hr);
    try reflexivity; try discriminate.
  exists A, e, A1, data, A2. repeat split; assumption.
Defined.

(** X26. For an archive that [__parse] returned and a name it holds,
    [isFile] and [isDirectory] never raise and answer opposite ways, [isFile]
    with [True] exactly when the first entry of that name is a [File] object;
    for a name it does not hold, both raise [EntryNotFoundException]. *)
Theorem parsed_entry_is_file_or_directory now (data : bytes) (A : PSU.t) (name : str) :
  PSU.parse now data = Some (Ok A) ->
  (forall e, PSU.get A name None = Ok e ->
     exists b, PSU.isFile A name = Ok b /\ PSU.isDirectory A name = Ok (negb b) /\
               (b = true <-> Entry.cls e = FileClass)) /\
  ((forall e, e ∈ A -> Entry.name e <> name) ->
   PSU.isFile A name = Raise (EntryNotFoundException name) /\
   PSU.isDirectory A name = Raise (EntryNotFoundException name)).
Proof.
  intros Hp. split.
  - intros e Hg. unfold PSU.isFile, PSU.isDirectory. rewrite Hg. cbn [mbind result_bind].
    apply get_Ok in Hg as (i & Hi & _).
    pose proof (parse_parsed_ok now data A Hp) as Hok.
    rewrite Forall_lookup in Hok. destruct (Hok i e Hi) as (Hty & _).
    unfold Entry.isFile, Entry.isDirectory, entry_type in *. rewrite Hty.
    destruct (Entry.cls e); cbn [class_type].
    + exists false. rewrite bool_decide_eq_false_2 by discriminate.
      rewrite bool_decide_eq_true_2 by reflexivity. repeat split; discriminate.
    + exists true. rewrite bool_decide_eq_true_2 by reflexivity.
      rewrite bool_decide_eq_false_2 by discriminate. repeat split.
  - intros Hno. unfold PSU.isFile, PSU.isDirectory.
    rewrite (proj2 (get_Raise A name None (EntryNotFoundException name))).
    + split; reflexivity.
    + split; [reflexivity|]. intros e Hin [Hn _]. exact (Hno e Hin Hn).
Qed.

Lemma parsed_entry_is_file_or_directory_witness :
  exists A,
    PSU.parse sample_now sample_bytes = Some (Ok A) /\
    PSU.isFile A name_icon_sys = Ok true /\
    PSU.isDirectory A name_icon_sys = Ok false /\
    PSU.isFile A name_x = Raise (EntryNotFoundException name_x).
Proof.
  destruct (PSU.parse sample_now sample_bytes) as [[A|]|] eqn:E;
    try (vm_compute in E; discriminate).
  exists A. split; [reflexivity|].
  destruct (parsed_entry_is_file_or_directory sample_now sample_bytes A name_icon_sys E)
    as [Hin _].
  destruct (parsed_entry_is_file_or_directory sample_now sample_bytes A name_x E)
    as [_ Hout].
  vm_compute in E. injection E as <-.
  split; [reflexivity|]. split; [reflexivity|].
  apply Hout. intros e He.
  repeat (apply elem_of_cons in He as [->|He]; [discriminate|]).
  now apply elem_of_nil in He.
Defined.

(** ** Lookups of other names *)

Lemma get_cons e (A : PSU.t) name ty :
  PSU.get (e :: A) name ty =
    if decide (entry_matches name ty e) then Ok e else PSU.get A name ty.
Proof.
  unfold PSU.get, PSU.index, entry_matches, entry_type. cbn [list_find].
  destruct (decide _); [reflexivity|].
  destruct (list_find _ A) as [[i x]|]; reflexivity.
Qed.

Lemma get_without (pre post : PSU.t) e name ty :
  ~ entry_matches name ty e ->
  PSU.get (pre ++ e :: post) name ty = PSU.get (pre ++ post) name ty.
Proof.
  intros He. induction pre as [|a pre IH]; cbn [app]; rewrite !get_cons.
  - destruct (decide _); [contradiction|]. symmetry. 
    destruct post; [reflexivity|]. now rewrite get_cons.
  - now rewrite IH.
Qed.

Lemma get_snoc_nonmatching (A : PSU.t) e name ty :
  ~ entry_matches name ty e ->
  PSU.get (A ++ [e]) name ty = PSU.get A name ty.
Proof. intros He. rewrite (get_without A [] e name ty He). now rewrite app_nil_r. Qed.

(** X27. [write] to one name leaves the lookups of every other name as they
    were: [get] of another name, with or without a type, answers the same
    before and after. *)
Theorem write_keeps_other_names now (A A' : PSU.t) (name : str) (data : pydata)
    (e' : Entry.t) :
  PSU.write now A name data = Ok (A', e') ->
  forall name' ty, name' <> name -> PSU.get A' name' ty = PSU.get A name' ty.
Proof.
  intros Hw name' ty Hne.
  destruct (PSU.as_bytes data) as [d|] eqn:Hd;
    [|unfold PSU.write in Hw; rewrite Hd in Hw; discriminate].
  destruct (first_named_or_absent A name) as [(i & e & Hm)|Hno].
  - rewrite (write_existing now A name data d i e Hd Hm) in Hw. injection Hw as <- <-.
    destruct Hm as (Hi & [Hn _] & _).
    apply (get_insert_nonmatching A name' ty i e); [exact Hi| |];
      intros [Hn' _]; cbn in Hn'; congruence.
  - rewrite (write_new now A name data d Hd Hno) in Hw. injection Hw as <- <-.
    apply get_snoc_nonmatching. intros [Hn' _]. cbn in Hn'. congruence.
Qed.

Lemma write_keeps_other_names_witness :
  PSU.get sample_archive name_dot None = PSU.get sample_dirs name_dot None.
Proof.
  apply (write_keeps_other_names sample_now sample_dirs sample_archive name_icon_sys
           (PyBytes (replicate 10 x00))
           (Entry.File.new sample_now name_icon_sys (replicate 10 x00) None (zeros 32)));
    [reflexivity|discriminate].
Defined.

(** X28. [delete] of one name leaves the lookups of every other name as they
    were; when only one entry had the deleted name, [has] of it then answers
    [False]. *)
Theorem delete_keeps_other_names (A A' : PSU.t) (name : str) :
  PSU.delete A name = Ok A' ->
  (forall name' ty, name' <> name -> PSU.get A' name' ty = PSU.get A name' ty) /\
  (forall i e, first_match A name None i e ->
     (forall j e0, (i < j)%nat -> A !! j = Some e0 -> Entry.name e0 <> name) ->
     PSU.has A' name = Ok false).
Proof.
  intros Hdel. unfold PSU.delete in Hdel.
  destruct (PSU.index A name None) as [i|] eqn:Hidx; cbn [mbind result_bind] in Hdel;
    [|discriminate].
  injection Hdel as <-. apply index_Ok in Hidx as (e & Hm).
  pose proof Hm as (Hi & [Hn _] & Hfirst).
  rewrite delete_take_drop. split.
  - intros name' ty Hne. rewrite <- (take_drop_middle A i e Hi) at 3.
    symmetry. apply get_without. intros [Hn' _]. congruence.
  - intros i' e1 Hm' Hlast.
    destruct (first_match_unique _ _ _ _ _ _ _ Hm Hm') as [<- <-].
    apply has_false. intros e0 Hin Hn0.
    apply elem_of_app in Hin as [Hin|Hin]; apply list_elem_of_lookup in Hin as [j Hj].
    + rewrite lookup_take_Some in Hj. destruct Hj as [Hj Hlt].
      apply (Hfirst j e0 Hlt Hj). split; [exact Hn0|now left].
    + rewrite lookup_drop in Hj. apply (Hlast (S i + j)%nat e0); [lia|exact Hj|exact Hn0].
Qed.

Lemma delete_keeps_other_names_witness :
  exists A',
    PSU.delete sample_archive name_icon_sys = Ok A' /\
    PSU.get A' name_dot None = PSU.get sample_archive name_dot None /\
    PSU.has A' name_icon_sys = Ok false.
Proof.
  destruct (PSU.delete sample_archive name_icon_sys) as [A'|] eqn:E;
    [|vm_compute in E; discriminate].
  destruct (delete_keeps_other_names sample_archive A' name_icon_sys E) as [Hk Hh].
  exists A'. split; [reflexivity|]. split; [apply Hk; discriminate|].
  apply (Hh 3%nat (Entry.File.new sample_now name_icon_sys (replicate 10 x00) None (zeros 32))).
  - split; [reflexivity|]. split; [split; [reflexivity|now left]|].
    intros j e0 Hj He0 [Hn0 _].
    destruct j as [|[|[|j]]]; [..|lia]; vm_compute in He0; injection He0 as <-;
      vm_compute in Hn0; discriminate.
  - intros j e0 Hj He0. destruct j as [|[|[|[|j]]]]; try lia. vm_compute in He0. discriminate.
Defined.
